(** * Logopher: a LogStash client over UDP

    A shallow embedding of [logopher.go] and the statements of its
    specification.  The package owns one struct, [UDPWriter], and talks to
    the Go standard library ([net], [os], [time], [log], [fmt]).  The
    standard library and the operating system are modelled as an explicit
    [World]: a table of connections, the diagnostic log, the trace of calls
    made so far, and an [Env] of oracles that decide what every call into the
    outside answers. *)

From Stdlib Require Import ZArith Strings.String Strings.Ascii Strings.Byte List Bool Lia.
From stdpp Require Import base list strings pretty.

Local Open Scope Z_scope.

(** ** Values of the Go runtime *)

(** A non-nil [error]; a Go [error] that may be nil is an [option error]. *)
Record error : Type := mkError { Error : string }.

(** [*net.UDPAddr], as resolved. *)
Record UDPAddr : Type := mkUDPAddr { IP : string; Port : Z }.

(** What the runtime knows of a [net.UDPConn] object: the endpoint it was
    dialled to and whether its descriptor is still open. *)
Record UDPConn : Type := mkUDPConn { raddr : UDPAddr; live : bool }.

(** The struct of the package.  [socket] is a [*net.UDPConn]: [None] is the
    nil pointer, [Some c] refers to the connection object number [c]. *)
Record UDPWriter : Type := mkUDPWriter {
  socket : option nat;
  address : string;
  enableLogging : bool
}.

(** Calls that leave the process. *)
Inductive event : Type :=
| EvResolve (addr : string)
| EvDial (to : option UDPAddr)
| EvWrite (conn : nat) (payload : list byte)
| EvClose (conn : nat)
| EvHostname
| EvNow.

(** The answers of the outside.  Every oracle is indexed by the instant of
    the call, which is the number of calls made before it. *)
Record Env : Type := mkEnv {
  resolver : nat -> string -> error + UDPAddr;
  dialer : nat -> UDPAddr -> option error;
  transport : nat -> nat -> list byte -> nat * option error;
  closer : nat -> nat -> option error;
  hostname : nat -> error + string;
  wall_clock : nat -> string
}.

Record World : Type := mkWorld {
  env : Env;
  trace : list event;
  conns : list UDPConn;
  stdlog : list string
}.

Definition now (w : World) : nat := length (trace w).

Definition emit (ev : event) (w : World) : World :=
  {| env := env w; trace := trace w ++ [ev]; conns := conns w; stdlog := stdlog w |}.

Definition set_conns (cs : list UDPConn) (w : World) : World :=
  {| env := env w; trace := trace w; conns := cs; stdlog := stdlog w |}.

Definition append_log (line : string) (w : World) : World :=
  {| env := env w; trace := trace w; conns := conns w; stdlog := stdlog w ++ [line] |}.

(** A method runs on its receiver and the world. *)
Record Machine : Type := mkMachine { recv : UDPWriter; world : World }.

(** ** Computations

    A call returns, panics, or is still in its loop when the fuel given to
    it is spent. *)
Inductive result (S A : Type) : Type :=
| Returns (a : A) (s : S)
| Panics (reason : string)
| OutOfFuel.
Arguments Returns {S A} a s.
Arguments Panics {S A} reason.
Arguments OutOfFuel {S A}.

Definition M (S A : Type) : Type := S -> result S A.

Definition ret {S A : Type} (a : A) : M S A := fun s => Returns a s.

Definition bind {S A B : Type} (m : M S A) (k : A -> M S B) : M S B :=
  fun s =>
    match m s with
    | Returns a s' => k a s'
    | Panics r => Panics r
    | OutOfFuel => OutOfFuel
    end.

Definition panic {S A : Type} (reason : string) : M S A := fun _ => Panics reason.

Definition spin {S A : Type} : M S A := fun _ => OutOfFuel.

Declare Scope go_scope.
Delimit Scope go_scope with go.
Notation "'let*' pat := c1 'in' c2" := (bind c1 (fun pat => c2))
  (at level 10, pat pattern, c1 at level 100, c2 at level 200) : go_scope.
Notation "c1 ;; c2" := (bind c1 (fun _ => c2))
  (at level 100, c2 at level 200, right associativity) : go_scope.
Local Open Scope go_scope.

(** A library call made from inside a method leaves the receiver alone. *)
Definition lift {A : Type} (m : M World A) : M Machine A :=
  fun s =>
    match m (world s) with
    | Returns a w' => Returns a {| recv := recv s; world := w' |}
    | Panics r => Panics r
    | OutOfFuel => OutOfFuel
    end.

(** Reading the receiver [*u], and the one assignment a method makes to it. *)
Definition this : M Machine UDPWriter := fun s => Returns (recv s) s.

Definition store_socket (c : option nat) : M Machine unit :=
  fun s =>
    Returns tt {| recv := {| socket := c;
                             address := address (recv s);
                             enableLogging := enableLogging (recv s) |};
                  world := world s |}.

Definition nil_dereference : string :=
  "runtime error: invalid memory address or nil pointer dereference".

(** Go's [int] on a 64-bit target, with the wrap-around of [+]. *)
Definition wrap_int (z : Z) : Z := (z + 2 ^ 63) mod 2 ^ 64 - 2 ^ 63.
Definition int_add (a b : Z) : Z := wrap_int (a + b).
Definition max_int : Z := 2 ^ 63 - 1.

Definition len {A : Type} (s : list A) : Z := Z.of_nat (length s).

(** [s[i:]]: panics when [i] is outside [0..len(s)]. *)
Definition slice_from {S A : Type} (s : list A) (i : Z) : M S (list A) :=
  if (0 <=? i) && (i <=? len s) then ret (drop (Z.to_nat i) s)
  else panic "runtime error: slice bounds out of range".

Definition is_nil {A : Type} (e : option A) : bool :=
  match e with None => true | Some _ => false end.

(** ** The standard library, as far as the package uses it *)

Module fmt.

Inductive arg : Type :=
| Str (s : string)
| Int (z : Z)
| Err (e : error).

(** One operand under one verb.  The package only prints strings and
    errors under [%s] and ints under [%d]; any other pairing gets Go's
    bad-verb marker. *)
Definition render (verb : ascii) (a : arg) : string :=
  match a with
  | Str s => if Ascii.eqb verb "s" then s else "%!" +:+ String verb "(string)"
  | Err e => if Ascii.eqb verb "s" then Error e else "%!" +:+ String verb "(error)"
  | Int z => if Ascii.eqb verb "d" then pretty z else "%!" +:+ String verb "(int)"
  end.

(** [fmt.Sprintf]: each [%v] consumes the next operand, [%%] is a percent
    sign, everything else is copied. *)
Fixpoint Sprintf (format : string) (args : list arg) : string :=
  match format with
  | EmptyString => EmptyString
  | String c EmptyString => String c EmptyString
  | String c (String v rest as tail) =>
      if Ascii.eqb c "%" then
        if Ascii.eqb v "%" then String "%" (Sprintf rest args)
        else
          match args with
          | a :: args' => render v a +:+ Sprintf rest args'
          | [] => "%!" +:+ String v "(MISSING)" +:+ Sprintf rest []
          end
      else String c (Sprintf tail args)
  end.

End fmt.

Module log.

(** [log.Printf] hands the formatted line to the process-wide logger.
    The logger is not one of the calls the oracles count: what is printed
    changes no answer of the network. *)
Definition Printf (format : string) (args : list fmt.arg) : M World unit :=
  fun w => Returns tt (append_log (fmt.Sprintf format args) w).

End log.

Module os.

(** [os.Hostname]: the name, or the empty name and an error. *)
Definition Hostname : M World (string * option error) :=
  fun w =>
    let w' := emit EvHostname w in
    match hostname (env w) (now w) with
    | inr name => Returns (name, None) w'
    | inl e => Returns (EmptyString, Some e) w'
    end.

End os.

Module time.

(** [time.Now().String()]. *)
Definition Now_String : M World string :=
  fun w => Returns (wall_clock (env w) (now w)) (emit EvNow w).

End time.

Module net.

Definition errMissingAddress : error := mkError "missing address".
Definition errClosing : error := mkError "use of closed network connection".
Definition EINVAL : error := mkError "invalid argument".

(** [net.ResolveUDPAddr("udp", address)]. *)
Definition ResolveUDPAddr (address : string) : M World (option UDPAddr * option error) :=
  fun w =>
    let w' := emit (EvResolve address) w in
    match resolver (env w) (now w) address with
    | inr a => Returns (Some a, None) w'
    | inl e => Returns (None, Some e) w'
    end.

(** [net.DialUDP("udp", nil, raddr)]: on success a new connection object,
    numbered after all the earlier ones. *)
Definition DialUDP (to : option UDPAddr) : M World (option nat * option error) :=
  fun w =>
    let w' := emit (EvDial to) w in
    match to with
    | None => Returns (None, Some errMissingAddress) w'
    | Some a =>
        match dialer (env w) (now w) a with
        | Some e => Returns (None, Some e) w'
        | None =>
            Returns (Some (length (conns w)), None)
                    (set_conns (conns w ++ [{| raddr := a; live := true |}]) w')
        end
    end.

(** [UDPConn.Write]: through a nil pointer the call panics; a closed
    connection refuses; an open one answers what the transport answers,
    with a count between 0 and [len(b)]. *)
Definition Conn_Write (c : option nat) (b : list byte) : M World (Z * option error) :=
  fun w =>
    match c with
    | None => Panics nil_dereference
    | Some h =>
        let w' := emit (EvWrite h b) w in
        match conns w !! h with
        | None => Returns (0, Some EINVAL) w'
        | Some k =>
            if live k then
              let (n, e) := transport (env w) (now w) h b in
              Returns (Z.of_nat (Nat.min n (length b)), e) w'
            else Returns (0, Some errClosing) w'
        end
    end.

(** [UDPConn.Close]: through a nil pointer the call panics; the
    descriptor is released whatever the operating system answers; closing
    again is an error. *)
Definition Conn_Close (c : option nat) : M World (option error) :=
  fun w =>
    match c with
    | None => Panics nil_dereference
    | Some h =>
        let w' := emit (EvClose h) w in
        match conns w !! h with
        | None => Returns (Some EINVAL) w'
        | Some k =>
            if live k then
              Returns (closer (env w) (now w) h)
                      (set_conns (<[h := {| raddr := raddr k; live := false |}]> (conns w)) w')
            else Returns (Some errClosing) w'
        end
    end.

End net.

(** ** The package *)

Definition dquote : string := String "034"%char EmptyString.
Definition newline : string := String "010"%char EmptyString.

Definition basicMessageFormat : string :=
  "{" +:+ dquote +:+ "@timestamp" +:+ dquote +:+ ":" +:+ dquote +:+ "%s" +:+ dquote +:+ ", "
  +:+ dquote +:+ "@version" +:+ dquote +:+ ":" +:+ dquote +:+ "2" +:+ dquote +:+ ", "
  +:+ dquote +:+ "message" +:+ dquote +:+ ":" +:+ dquote +:+ "%s" +:+ dquote +:+ ", "
  +:+ dquote +:+ "host" +:+ dquote +:+ ":" +:+ dquote +:+ "%s" +:+ dquote +:+ "}" +:+ newline.

(** Calling a method on a struct the caller holds. *)
Definition on {A : Type} (u : UDPWriter) (m : M Machine A) : M World (A * UDPWriter) :=
  fun w =>
    match m {| recv := u; world := w |} with
    | Returns a s => Returns (a, recv s) (world s)
    | Panics r => Panics r
    | OutOfFuel => OutOfFuel
    end.

(** [func (u *UDPWriter) open() error] *)
Definition open : M Machine (option error) :=
  let* u := this in
  let* (udpAddr, err) := lift (net.ResolveUDPAddr (address u)) in
  if is_nil err then
    let* (conn, err) := lift (net.DialUDP udpAddr) in
    if is_nil err then
      store_socket conn ;;
      ret err
    else ret err
  else ret err.

(** [func DialUDP(address string, enableLogging bool)]: the writer, or the
    nil writer [None] and an error. *)
Definition DialUDP (address : string) (enableLogging : bool)
  : M World (option UDPWriter * option error) :=
  let writer := {| socket := None; address := address; enableLogging := enableLogging |} in
  let* (err, writer) := on writer open in
  if is_nil err then ret (Some writer, None)
  else ret (None, err).

(** [func (u *UDPWriter) Close() error] *)
Definition Close : M Machine (option error) :=
  let* u := this in
  lift (net.Conn_Close (socket u)).

(** [func (u *UDPWriter) Reopen() error] *)
Definition Reopen : M Machine (option error) :=
  let* err := Close in
  if is_nil err then
    let* err := open in
    if is_nil err then ret None
    else ret err
  else ret err.

(** The [for] loop of [Write]: one unit of fuel per iteration. *)
Fixpoint write_loop (fuel : nat) (rawBytes : list byte) (toWriteLen : Z)
    (totalBytesWritten : Z) (writeError : option error)
  : M Machine (Z * option error) :=
  if (totalBytesWritten <? toWriteLen) && is_nil writeError then
    match fuel with
    | O => spin
    | S fuel' =>
        let* u := this in
        let* rest := slice_from rawBytes totalBytesWritten in
        let* (bytesWritten, writeError) := lift (net.Conn_Write (socket u) rest) in
        write_loop fuel' rawBytes toWriteLen
                   (int_add totalBytesWritten bytesWritten) writeError
    end
  else ret (totalBytesWritten, writeError).

Definition write_failed_format : string :=
  "Error while writing data to %s. Expected to write %d, actually wrote %d. Underlying error: %s".

Definition cleanup_failed_format : string :=
  "There was a subsequent error cleaning up the connection to %s".

(** [func (u *UDPWriter) Write(rawBytes []byte) (int, error)] *)
Definition Write (fuel : nat) (rawBytes : list byte) : M Machine (Z * option error) :=
  let toWriteLen := len rawBytes in
  let* (totalBytesWritten, writeError) := write_loop fuel rawBytes toWriteLen 0 None in
  match writeError with
  | Some cause =>
      let* u := this in
      (if enableLogging u then
         lift (log.Printf write_failed_format
                 [fmt.Str (address u); fmt.Int toWriteLen;
                  fmt.Int totalBytesWritten; fmt.Err cause])
       else ret tt) ;;
      let* writeError := Close in
      if is_nil writeError then ret (totalBytesWritten, writeError)
      else
        let* u := this in
        (if enableLogging u then
           lift (log.Printf cleanup_failed_format [fmt.Str (address u)])
         else ret tt) ;;
        ret (totalBytesWritten, writeError)
  | None => ret (totalBytesWritten, writeError)
  end.

(** [func (u *UDPWriter) Log(msg string) (int, error)] *)
Definition Log (fuel : nat) (msg : string) : M Machine (Z * option error) :=
  let* (host, _) := lift os.Hostname in
  let* stamp := lift time.Now_String in
  let data := fmt.Sprintf basicMessageFormat [fmt.Str stamp; fmt.Str msg; fmt.Str host] in
  Write fuel (list_byte_of_string data).


(** ** Vocabulary of the statements *)

(** The wire format of the specification, written out. *)
Definition envelope (stamp msg host : string) : string :=
  "{" +:+ dquote +:+ "@timestamp" +:+ dquote +:+ ":" +:+ dquote +:+ stamp +:+ dquote +:+ ", "
  +:+ dquote +:+ "@version" +:+ dquote +:+ ":" +:+ dquote +:+ "2" +:+ dquote +:+ ", "
  +:+ dquote +:+ "message" +:+ dquote +:+ ":" +:+ dquote +:+ msg +:+ dquote +:+ ", "
  +:+ dquote +:+ "host" +:+ dquote +:+ ":" +:+ dquote +:+ host +:+ dquote +:+ "}" +:+ newline.

(** How many closes a trace holds. *)
Definition is_close (ev : event) : bool :=
  match ev with EvClose _ => true | _ => false end.

Definition closes (tr : list event) : nat := length (filter is_close tr).

(** A connection object that exists and is open. *)
Definition is_open (w : World) (c : nat) : Prop :=
  exists a, conns w !! c = Some {| raddr := a; live := true |}.

(** Two writers that differ at most in [enableLogging]; two worlds that
    differ at most in the diagnostic log. *)
Definition flag_blind (u1 u2 : UDPWriter) : Prop :=
  socket u1 = socket u2 /\ address u1 = address u2.

Definition log_blind (w1 w2 : World) : Prop :=
  env w1 = env w2 /\ trace w1 = trace w2 /\ conns w1 = conns w2.

Definition alike (s1 s2 : Machine) : Prop :=
  flag_blind (recv s1) (recv s2) /\ log_blind (world s1) (world s2).

(** Two runs end the same way, up to [RS] on the final states. *)
Definition agree {S A : Type} (RS : S -> S -> Prop) (RA : A -> A -> Prop)
    (r1 r2 : result S A) : Prop :=
  match r1, r2 with
  | Returns a1 s1, Returns a2 s2 => RA a1 a2 /\ RS s1 s2
  | Panics x, Panics y => x = y
  | OutOfFuel, OutOfFuel => True
  | _, _ => False
  end.

(** A method that returns leaves the configuration of its receiver alone. *)
Definition same_config (u u' : UDPWriter) : Prop :=
  address u' = address u /\ enableLogging u' = enableLogging u.

Definition keeps_config {A : Type} (m : M Machine A) : Prop :=
  forall s a s', m s = Returns a s' -> same_config (recv s) (recv s').

(** ** Some environments *)

Definition localhost : UDPAddr := {| IP := "127.0.0.1"; Port := 9999 |}.

(** Every name but the empty one resolves, every call succeeds, the
    transport takes whole payloads. *)
Definition healthy : Env :=
  {| resolver := fun _ a =>
       if String.eqb a "" then inl (mkError "missing port in address") else inr localhost;
     dialer := fun _ _ => None;
     transport := fun _ _ b => (length b, None);
     closer := fun _ _ => None;
     hostname := fun _ => inr "box";
     wall_clock := fun _ => "2015-03-01 12:00:00 +0000 UTC" |}.

(** As [healthy], but every datagram bounces. *)
Definition refusing : Env :=
  {| resolver := resolver healthy;
     dialer := dialer healthy;
     transport := fun _ _ _ => (0%nat, Some (mkError "write: connection refused"));
     closer := closer healthy;
     hostname := hostname healthy;
     wall_clock := wall_clock healthy |}.

(** As [healthy], but the first write of a payload takes two bytes and the
    later ones bounce. *)
Definition stuttering : Env :=
  {| resolver := resolver healthy;
     dialer := dialer healthy;
     transport := fun t _ _ =>
       if (t <=? 2)%nat then (2%nat, None)
       else (0%nat, Some (mkError "write: connection refused"));
     closer := closer healthy;
     hostname := hostname healthy;
     wall_clock := wall_clock healthy |}.

(** As [healthy], but the operating system fails to release descriptors
    and does not know its own name. *)
Definition grumpy : Env :=
  {| resolver := resolver healthy;
     dialer := dialer healthy;
     transport := transport healthy;
     closer := fun _ _ => Some (mkError "close: input/output error");
     hostname := fun _ => inl (mkError "uname: function not implemented");
     wall_clock := wall_clock healthy |}.

Definition boot (e : Env) : World :=
  {| env := e; trace := []; conns := []; stdlog := [] |}.

(** The state a successful [DialUDP "127.0.0.1:9999" flag] leaves behind. *)
Definition dialled (e : Env) (flag : bool) : Machine :=
  {| recv := {| socket := Some 0%nat; address := "127.0.0.1:9999"; enableLogging := flag |};
     world := {| env := e;
                 trace := [EvResolve "127.0.0.1:9999"; EvDial (Some localhost)];
                 conns := [{| raddr := localhost; live := true |}];
                 stdlog := [] |} |}.

Definition hello : list byte := list_byte_of_string "hello".

(** A transport that takes at least one byte of every non-empty payload
    written to connection [c], without an error. *)
Definition makes_progress (e : Env) (c : nat) : Prop :=
  forall t p, p <> [] -> exists k, transport e t c p = (S k, None).

(** ** More vocabulary and environments *)

(** A socket write to connection [c] that carries a suffix of [b]. *)
Definition suffix_write (c : nat) (b : list byte) (ev : event) : Prop :=
  exists k, ev = EvWrite c (drop k b).

(** The two diagnostics of [Write], as it formats them. *)
Definition write_failed_line (u : UDPWriter) (b : list byte) (n : Z) (cause : error)
  : string :=
  fmt.Sprintf write_failed_format
    [fmt.Str (address u); fmt.Int (len b); fmt.Int n; fmt.Err cause].

Definition cleanup_failed_line (u : UDPWriter) : string :=
  fmt.Sprintf cleanup_failed_format [fmt.Str (address u)].

(** The separator the template puts between the message and the host. *)
Definition host_separator : string :=
  dquote +:+ ", " +:+ dquote +:+ "host" +:+ dquote +:+ ":" +:+ dquote.

(** As [healthy], but no datagram endpoint can be created. *)
Definition unreachable : Env :=
  {| resolver := resolver healthy;
     dialer := fun _ _ => Some (mkError "dial udp: network is unreachable");
     transport := transport healthy;
     closer := closer healthy;
     hostname := hostname healthy;
     wall_clock := wall_clock healthy |}.

(** As [healthy], but names stop resolving after the first two calls. *)
Definition forgetful : Env :=
  {| resolver := fun t _ =>
       if (t <? 2)%nat then inr localhost else inl (mkError "lookup: no such host");
     dialer := dialer healthy;
     transport := transport healthy;
     closer := closer healthy;
     hostname := hostname healthy;
     wall_clock := wall_clock healthy |}.

(** As [refusing], but the descriptor cannot be released either. *)
Definition hopeless : Env :=
  {| resolver := resolver healthy;
     dialer := dialer healthy;
     transport := transport refusing;
     closer := fun _ _ => Some (mkError "close: input/output error");
     hostname := hostname healthy;
     wall_clock := wall_clock healthy |}.

(** The state [dialled] is in once its connection has been closed. *)
Definition hung_up (e : Env) (flag : bool) : Machine :=
  {| recv := recv (dialled e flag);
     world := emit (EvClose 0%nat)
                (set_conns [{| raddr := localhost; live := false |}]
                   (world (dialled e flag))) |}.

(** The datagram [Log] builds for [msg] when called in world [w]: the
    host is what the lookup answers at that instant, or empty, and the stamp
    is what the clock reads right after. *)
Definition log_payload (w : World) (msg : string) : list byte :=
  list_byte_of_string
    (envelope (wall_clock (env w) (now (emit EvHostname w))) msg
       (match hostname (env w) (now w) with
        | inr name => name
        | inl _ => EmptyString
        end)).

(** Two writers dialled one after the other; the receiver is the second. *)
Definition second_of_two (e : Env) : Machine :=
  {| recv := {| socket := Some 1%nat; address := "127.0.0.1:9999"; enableLogging := false |};
     world := {| env := e;
                 trace := [EvResolve "127.0.0.1:9999"; EvDial (Some localhost);
                           EvResolve "127.0.0.1:9999"; EvDial (Some localhost)];
                 conns := [{| raddr := localhost; live := true |};
                           {| raddr := localhost; live := true |}];
                 stdlog := [] |} |}.

(** A transport that takes nothing of what is written to connection [c],
    and reports no error. *)
Definition stalls (e : Env) (c : nat) : Prop :=
  forall t p, transport e t c p = (0%nat, None).

(** As [healthy], but the transport accepts no byte and says nothing. *)
Definition stalled : Env :=
  {| resolver := resolver healthy;
     dialer := dialer healthy;
     transport := fun _ _ _ => (0%nat, None);
     closer := closer healthy;
     hostname := hostname healthy;
     wall_clock := wall_clock healthy |}.

(** A writer built as a struct literal, never opened: its socket is nil. *)
Definition unopened (e : Env) : Machine :=
  {| recv := {| socket := None; address := "127.0.0.1:9999"; enableLogging := false |};
     world := boot e |}.

(** The state a call leaves behind, for naming the outcome of a run. *)
Definition state_after {A : Type} (r : result Machine A) : Machine :=
  match r with
  | Returns _ s => s
  | _ => unopened healthy
  end.

(** * Properties *)

(** ** The monad *)

Lemma bind_returns {S A B : Type} (m : M S A) (k : A -> M S B) s a s' :
  m s = Returns a s' -> bind m k s = k a s'.
Proof. intros H. unfold bind. now rewrite H. Qed.

Lemma bind_inv {S A B : Type} (m : M S A) (k : A -> M S B) s b s'' :
  bind m k s = Returns b s'' ->
  exists a s', m s = Returns a s' /\ k a s' = Returns b s''.
Proof.
  unfold bind. destruct (m s) as [a s'| |]; try discriminate.
  intros H. now exists a, s'.
Qed.

Lemma lift_inv {A : Type} (m : M World A) s a s' :
  lift m s = Returns a s' ->
  recv s' = recv s /\ m (world s) = Returns a (world s').
Proof.
  unfold lift. destruct (m (world s)) as [x w'| |]; try discriminate.
  intros H. inversion H; subst. now split.
Qed.

(** What [DialUDP] leaves behind is what [dialled] says. *)
Lemma DialUDP_dialled flag :
  DialUDP "127.0.0.1:9999" flag (boot healthy)
  = Returns (Some (recv (dialled healthy flag)), None) (world (dialled healthy flag)).
Proof. reflexivity. Qed.

(** ** Closing *)

Lemma Close_unfold s :
  Close s = lift (net.Conn_Close (socket (recv s))) s.
Proof. reflexivity. Qed.

(** After a close that returned, the connection is not open any more. *)
Lemma Conn_Close_not_open c w r w' :
  net.Conn_Close (Some c) w = Returns r w' ->
  match conns w' !! c with
  | Some k => live k = false
  | None => True
  end.
Proof.
  unfold net.Conn_Close.
  destruct (conns w !! c) as [k|] eqn:Hk.
  - destruct (live k) eqn:Hl; intros H; inversion H; subst; clear H; simpl.
    + rewrite list_lookup_insert_eq; [reflexivity|].
      eapply lookup_lt_Some; eassumption.
    + now rewrite Hk.
  - intros H; inversion H; subst; simpl. now rewrite Hk.
Qed.

(** Closing a connection that is not open is an error. *)
Lemma Conn_Close_again c w :
  match conns w !! c with
  | Some k => live k = false
  | None => True
  end ->
  exists e, net.Conn_Close (Some c) w = Returns (Some e) (emit (EvClose c) w).
Proof.
  unfold net.Conn_Close.
  destruct (conns w !! c) as [k|].
  - intros ->. now exists net.errClosing.
  - intros _. now exists net.EINVAL.
Qed.

(** C8. A writer whose [Close] has returned, with or without an error,
    answers every further [Close] with an error: closing twice is not
    idempotent. *)
Theorem Close_twice_fails s e1 s1 :
  Close s = Returns e1 s1 ->
  exists e2 s2, Close s1 = Returns (Some e2) s2.
Proof.
  rewrite !Close_unfold. intros H.
  destruct (lift_inv _ _ _ _ H) as [Hu Hw].
  rewrite Hu.
  destruct (socket (recv s)) as [c|]; [|discriminate].
  apply Conn_Close_not_open in Hw.
  destruct (Conn_Close_again c (world s1) Hw) as [e2 He2].
  unfold lift. rewrite He2. eauto.
Qed.

Lemma Close_twice_fails_witness :
  exists e2 s2,
    Close {| recv := recv (dialled healthy false);
             world := emit (EvClose 0%nat)
                        (set_conns [{| raddr := localhost; live := false |}]
                           (world (dialled healthy false))) |}
    = Returns (Some e2) s2.
Proof.
  apply (Close_twice_fails (dialled healthy false) None).
  reflexivity.
Defined.

(** ** Construction *)

(** C4. When the address does not resolve, [DialUDP] returns the resolver's
    error and the nil writer; the resolution is the only call it made, and
    the table of connections is as it was: no socket was opened. *)
Theorem DialUDP_unresolved addr flag w e :
  resolver (env w) (now w) addr = inl e ->
  exists w',
    DialUDP addr flag w = Returns (None, Some e) w'
    /\ trace w' = trace w ++ [EvResolve addr]
    /\ conns w' = conns w.
Proof.
  intros H. exists (emit (EvResolve addr) w).
  repeat split.
  unfold DialUDP, on, bind, open, bind, this, lift, net.ResolveUDPAddr. simpl.
  now rewrite H.
Qed.

Lemma DialUDP_unresolved_witness :
  exists w',
    DialUDP "" true (boot healthy)
    = Returns (None, Some (mkError "missing port in address")) w'
    /\ trace w' = trace (boot healthy) ++ [EvResolve ""]
    /\ conns w' = conns (boot healthy).
Proof.
  apply (DialUDP_unresolved "" true (boot healthy)).
  reflexivity.
Defined.

(** ** Writing *)

(** C9. [Write] of the empty payload returns [(0, nil)] and leaves the
    receiver and the world exactly as they were: the loop body is never
    entered, so there is no socket write and no close, with a nil socket
    and with no fuel at all. *)
Theorem Write_empty fuel s :
  Write fuel [] s = Returns (0, None) s.
Proof.
  unfold Write, bind. destruct fuel; reflexivity.
Qed.

(** ** The configuration of a writer is a frame *)

Lemma same_config_refl u : same_config u u.
Proof. now split. Qed.

Lemma same_config_trans u v x :
  same_config u v -> same_config v x -> same_config u x.
Proof. intros [? ?] [? ?]. split; congruence. Qed.

Lemma keeps_ret {A : Type} (a : A) : keeps_config (ret a).
Proof. intros s x s' H. inversion H; subst. apply same_config_refl. Qed.

Lemma keeps_panic {A : Type} r : keeps_config (@panic Machine A r).
Proof. intros s x s' H. discriminate. Qed.

Lemma keeps_spin {A : Type} : keeps_config (@spin Machine A).
Proof. intros s x s' H. discriminate. Qed.

Lemma keeps_this : keeps_config this.
Proof. intros s x s' H. inversion H; subst. apply same_config_refl. Qed.

Lemma keeps_store_socket c : keeps_config (store_socket c).
Proof. intros s x s' H. inversion H; subst. now split. Qed.

Lemma keeps_lift {A : Type} (m : M World A) : keeps_config (lift m).
Proof.
  intros s x s' H. apply lift_inv in H as [-> _]. apply same_config_refl.
Qed.

Lemma keeps_bind {A B : Type} (m : M Machine A) (k : A -> M Machine B) :
  keeps_config m -> (forall a, keeps_config (k a)) -> keeps_config (bind m k).
Proof.
  intros Hm Hk s b s'' H.
  apply bind_inv in H as (a & s' & H1 & H2).
  eapply same_config_trans; [eapply Hm | eapply Hk]; eassumption.
Qed.

Lemma keeps_slice_from {A : Type} (l : list A) i : keeps_config (slice_from l i).
Proof.
  unfold slice_from. destruct (_ && _); [apply keeps_ret | apply keeps_panic].
Qed.

Create HintDb frame.
#[local] Hint Resolve keeps_ret keeps_panic keeps_spin keeps_this
  keeps_store_socket keeps_lift keeps_slice_from : frame.

Ltac frame_step :=
  match goal with
  | |- keeps_config (bind _ _) => apply keeps_bind; [|intros]
  | |- keeps_config (if ?b then _ else _) => destruct b
  | |- keeps_config (match ?x with (_, _) => _ end) => destruct x
  | |- keeps_config (match ?x with Some _ => _ | None => _ end) => destruct x
  | |- keeps_config _ => solve [auto with frame]
  end.

Lemma keeps_open : keeps_config open.
Proof. unfold open. repeat frame_step. Qed.

Lemma keeps_Close : keeps_config Close.
Proof. unfold Close. repeat frame_step. Qed.

Lemma keeps_Reopen : keeps_config Reopen.
Proof.
  unfold Reopen.
  apply keeps_bind; [apply keeps_Close | intros e].
  destruct (is_nil e); [|apply keeps_ret].
  apply keeps_bind; [apply keeps_open | intros e'].
  destruct (is_nil e'); apply keeps_ret.
Qed.

Lemma keeps_write_loop fuel b n total e :
  keeps_config (write_loop fuel b n total e).
Proof.
  revert total e. induction fuel as [|fuel IH]; intros total e; simpl;
    destruct (_ && _); auto with frame.
  all: repeat frame_step.
Qed.

Lemma keeps_Write fuel b : keeps_config (Write fuel b).
Proof.
  unfold Write.
  apply keeps_bind; [apply keeps_write_loop | intros [total [cause|]]]; [|apply keeps_ret].
  apply keeps_bind; [apply keeps_this | intros u].
  apply keeps_bind; [destruct (enableLogging u); auto with frame | intros _].
  apply keeps_bind; [apply keeps_Close | intros e].
  destruct (is_nil e); [apply keeps_ret|].
  repeat frame_step.
Qed.

Lemma keeps_Log fuel msg : keeps_config (Log fuel msg).
Proof.
  unfold Log.
  apply keeps_bind; [apply keeps_lift | intros [host e]].
  apply keeps_bind; [apply keeps_lift | intros stamp].
  apply keeps_Write.
Qed.

(** C10. Whatever [Log], [Write], [Close] and [Reopen] do, a call that
    returns leaves the [address] and the [enableLogging] flag of its
    receiver as they were; of the three fields only [socket] can differ. *)
Theorem operations_keep_config fuel msg b s :
  (forall r s', Log fuel msg s = Returns r s' -> same_config (recv s) (recv s'))
  /\ (forall r s', Write fuel b s = Returns r s' -> same_config (recv s) (recv s'))
  /\ (forall r s', Close s = Returns r s' -> same_config (recv s) (recv s'))
  /\ (forall r s', Reopen s = Returns r s' -> same_config (recv s) (recv s')).
Proof.
  split; [|split; [|split]]; intros r s' H.
  - exact (keeps_Log fuel msg s r s' H).
  - exact (keeps_Write fuel b s r s' H).
  - exact (keeps_Close s r s' H).
  - exact (keeps_Reopen s r s' H).
Qed.

Lemma operations_keep_config_witness :
  same_config (recv (dialled healthy true))
    {| socket := Some 1%nat; address := "127.0.0.1:9999"; enableLogging := true |}.
Proof.
  refine (proj2 (proj2 (proj2
            (operations_keep_config 0 "" [] (dialled healthy true)))) None
            {| recv := _; world := _ |} _).
  reflexivity.
Defined.

(** ** Reopening *)

(** What a [Close] that returned has done. *)
Lemma Close_inv s r s1 :
  Close s = Returns r s1 ->
  exists c,
    socket (recv s) = Some c
    /\ recv s1 = recv s
    /\ env (world s1) = env (world s)
    /\ trace (world s1) = trace (world s) ++ [EvClose c]
    /\ length (conns (world s1)) = length (conns (world s))
    /\ (r = None -> exists a, conns (world s) !! c = Some {| raddr := a; live := true |}).
Proof.
  rewrite Close_unfold. intros H. apply lift_inv in H as [Hu H].
  destruct (socket (recv s)) as [c|]; [|discriminate].
  exists c. split; [reflexivity|]. split; [assumption|].
  revert H. unfold net.Conn_Close.
  destruct (conns (world s) !! c) as [[a l]|] eqn:Hk; simpl.
  - destruct l; intros H; injection H as Hr Hw; rewrite <- Hw; simpl.
    + rewrite length_insert. repeat split. intros _. now exists a.
    + subst r. repeat split. discriminate.
  - intros H; injection H as Hr Hw; rewrite <- Hw; subst r; simpl.
    repeat split. discriminate.
Qed.

(** What an [open] that succeeded has done. *)
Lemma open_inv s s' :
  open s = Returns None s' ->
  exists a,
    resolver (env (world s)) (now (world s)) (address (recv s)) = inr a
    /\ socket (recv s') = Some (length (conns (world s)))
    /\ conns (world s') = conns (world s) ++ [{| raddr := a; live := true |}]
    /\ trace (world s') = trace (world s) ++ [EvResolve (address (recv s)); EvDial (Some a)].
Proof.
  unfold open, bind, this, lift, net.ResolveUDPAddr. simpl.
  destruct (resolver _ _ _) as [e|a]; simpl; [discriminate|].
  unfold net.DialUDP. simpl.
  destruct (dialer _ _ _) as [e|]; simpl; [discriminate|].
  unfold store_socket, ret. simpl.
  intros H. inversion H; subst; clear H. simpl.
  exists a. rewrite <- app_assoc. now repeat split.
Qed.

Lemma Reopen_after_Close s s1 :
  Close s = Returns None s1 -> Reopen s = open s1.
Proof.
  intros H. unfold Reopen. rewrite (bind_returns _ _ _ _ _ H). simpl.
  unfold bind. destruct (open s1) as [[e|] s2| |]; reflexivity.
Qed.

(** [open], by what the resolver and the dialler answer. *)
Lemma open_cases s :
  open s
  = match resolver (env (world s)) (now (world s)) (address (recv s)) with
    | inl e =>
        Returns (Some e)
          {| recv := recv s; world := emit (EvResolve (address (recv s))) (world s) |}
    | inr a =>
        let w1 := emit (EvResolve (address (recv s))) (world s) in
        match dialer (env (world s)) (now w1) a with
        | Some e => Returns (Some e) {| recv := recv s; world := emit (EvDial (Some a)) w1 |}
        | None =>
            Returns None
              {| recv := {| socket := Some (length (conns (world s)));
                            address := address (recv s);
                            enableLogging := enableLogging (recv s) |};
                 world := set_conns (conns (world s) ++ [{| raddr := a; live := true |}])
                            (emit (EvDial (Some a)) w1) |}
        end
    end.
Proof.
  unfold open, bind, this, lift, net.ResolveUDPAddr. cbn [recv world].
  destruct (resolver _ _ _) as [e|a]; cbn [is_nil]; [reflexivity|].
  unfold net.DialUDP. cbn [recv world env emit conns].
  destruct (dialer _ _ _) as [e|]; reflexivity.
Qed.

(** C5. [Reopen] closes first.  If that close fails, its error is what
    [Reopen] returns, in the state the close left: the close is the only
    call made, nothing is resolved and nothing is dialled.  If the close
    succeeds, [Reopen] goes on as the resolver and the dialler answer: it
    asks the resolver for the configured address of the writer, at the
    instant after the close, and returns its error if it has one; otherwise
    it dials what the address resolved to and returns the error of the
    dial if it has one; otherwise it returns nil, and the writer holds a
    connection object that did not exist before, is not the old one, is
    open, and is dialled to what the configured address resolved to, while
    its address and flag are as they were. *)
Theorem Reopen_closes_then_opens s r s1 :
  Close s = Returns r s1 ->
  (forall e, r = Some e ->
     Reopen s = Returns (Some e) s1
     /\ exists c, socket (recv s) = Some c
                  /\ trace (world s1) = trace (world s) ++ [EvClose c])
  /\ (r = None ->
      exists c,
        socket (recv s) = Some c
        /\ trace (world s1) = trace (world s) ++ [EvClose c]
        /\ match resolver (env (world s1)) (now (world s1)) (address (recv s)) with
           | inl e =>
               Reopen s
               = Returns (Some e)
                   {| recv := recv s;
                      world := emit (EvResolve (address (recv s))) (world s1) |}
           | inr a =>
               match dialer (env (world s1))
                       (now (emit (EvResolve (address (recv s))) (world s1))) a with
               | Some e =>
                   Reopen s
                   = Returns (Some e)
                       {| recv := recv s;
                          world := emit (EvDial (Some a))
                                     (emit (EvResolve (address (recv s))) (world s1)) |}
               | None =>
                   exists s' c',
                     Reopen s = Returns None s'
                     /\ socket (recv s') = Some c'
                     /\ c' <> c
                     /\ conns (world s) !! c' = None
                     /\ conns (world s') !! c' = Some {| raddr := a; live := true |}
                     /\ same_config (recv s) (recv s')
                     /\ trace (world s')
                        = trace (world s)
                          ++ [EvClose c; EvResolve (address (recv s)); EvDial (Some a)]
               end
           end).
Proof.
  intros H.
  destruct (Close_inv _ _ _ H) as (c & Hc & Hu & He & Ht & Hl & Hlive).
  split.
  - intros e ->. split; [|now exists c].
    unfold Reopen. now rewrite (bind_returns _ _ _ _ _ H).
  - intros ->. exists c. split; [assumption|]. split; [assumption|].
    destruct (Hlive eq_refl) as [a0 Hk].
    assert (HR : Reopen s
                 = bind open (fun err => if is_nil err then ret None else ret err) s1)
      by (unfold Reopen; now rewrite (bind_returns _ _ _ _ _ H)).
    rewrite HR. unfold bind. rewrite open_cases, Hu.
    destruct (resolver _ _ _) as [e|a]; [reflexivity|]. cbn zeta.
    destruct (dialer _ _ _) as [e|]; [reflexivity|].
    eexists. exists (length (conns (world s1))).
    split; [reflexivity|]. cbn [recv world socket conns trace set_conns emit].
    split; [reflexivity|].
    split; [apply lookup_lt_Some in Hk; lia|].
    split; [apply lookup_ge_None; lia|].
    split; [rewrite lookup_app_r by lia; now rewrite Nat.sub_diag|].
    split; [now split|].
    rewrite Ht, <- !app_assoc. reflexivity.
Qed.

Lemma Reopen_closes_then_opens_witness :
  (Reopen (dialled grumpy false)
   = Returns (Some (mkError "close: input/output error")) (hung_up grumpy false)
   /\ exists c,
        socket (recv (dialled grumpy false)) = Some c
        /\ trace (world (hung_up grumpy false))
           = trace (world (dialled grumpy false)) ++ [EvClose c])
  /\ exists c,
       socket (recv (dialled healthy false)) = Some c
       /\ trace (world (hung_up healthy false))
          = trace (world (dialled healthy false)) ++ [EvClose c]
       /\ exists s' c',
            Reopen (dialled healthy false) = Returns None s'
            /\ socket (recv s') = Some c'
            /\ c' <> c
            /\ conns (world (dialled healthy false)) !! c' = None
            /\ conns (world s') !! c' = Some {| raddr := localhost; live := true |}
            /\ same_config (recv (dialled healthy false)) (recv s')
            /\ trace (world s')
               = trace (world (dialled healthy false))
                 ++ [EvClose c; EvResolve (address (recv (dialled healthy false)));
                     EvDial (Some localhost)].
Proof.
  split.
  - exact (proj1 (Reopen_closes_then_opens (dialled grumpy false)
                    (Some (mkError "close: input/output error"))
                    (hung_up grumpy false) eq_refl)
             (mkError "close: input/output error") eq_refl).
  - exact (proj2 (Reopen_closes_then_opens (dialled healthy false) None
                    (hung_up healthy false) eq_refl) eq_refl).
Defined.

(** ** The envelope *)

(** [Sprintf] on [basicMessageFormat] fills the three [%s] of the template
    with its operands as they are. *)
Lemma Sprintf_basicMessageFormat stamp msg host :
  fmt.Sprintf basicMessageFormat [fmt.Str stamp; fmt.Str msg; fmt.Str host]
  = envelope stamp msg host.
Proof. reflexivity. Qed.

(** [Log] is [Write] of the envelope, after one hostname lookup and one
    reading of the clock. *)
Lemma Log_unfold fuel msg s host err w1 :
  os.Hostname (world s) = Returns (host, err) w1 ->
  Log fuel msg s
  = Write fuel
      (list_byte_of_string (envelope (wall_clock (env w1) (now w1)) msg host))
      {| recv := recv s; world := emit EvNow w1 |}.
Proof.
  intros H. unfold Log, bind, lift. rewrite H.
  cbv beta iota zeta. unfold time.Now_String.
  rewrite Sprintf_basicMessageFormat. reflexivity.
Qed.

(** C6. [Log] asks for the hostname at the instant of the call.  When the
    lookup fails, whatever its error, [Log] goes on as [Write] of the
    envelope with the empty host: the error of the lookup is dropped, and
    the result of [Log] is the result of that [Write]. *)
Theorem Log_swallows_hostname_failure fuel msg s e :
  hostname (env (world s)) (now (world s)) = inl e ->
  Log fuel msg s
  = Write fuel
      (list_byte_of_string
         (envelope (wall_clock (env (world s)) (now (emit EvHostname (world s))))
                   msg EmptyString))
      {| recv := recv s; world := emit EvNow (emit EvHostname (world s)) |}.
Proof.
  intros H.
  apply (Log_unfold fuel msg s EmptyString (Some e) (emit EvHostname (world s))).
  unfold os.Hostname. now rewrite H.
Qed.

Lemma Log_swallows_hostname_failure_witness :
  Log 1 "test" (dialled grumpy false)
  = Write 1
      (list_byte_of_string
         (envelope (wall_clock grumpy 3) "test" EmptyString))
      {| recv := recv (dialled grumpy false);
         world := emit EvNow (emit EvHostname (world (dialled grumpy false))) |}.
Proof.
  apply (Log_swallows_hostname_failure 1 "test" (dialled grumpy false)
           (mkError "uname: function not implemented")).
  reflexivity.
Defined.

(** In that world the call returns without an error, the lookup failure
    notwithstanding. *)
Example Log_without_hostname :
  exists s',
    Log 1 "test" (dialled grumpy false)
    = Returns (len (list_byte_of_string
                      (envelope (wall_clock grumpy 3) "test" EmptyString)), None) s'.
Proof. eexists. vm_compute. reflexivity. Qed.

(** ** The logging flag does not interfere *)

Lemma agree_bind {S A B : Type} (RS : S -> S -> Prop)
    (RA : A -> A -> Prop) (RB : B -> B -> Prop)
    (m1 m2 : M S A) (k1 k2 : A -> M S B) s1 s2 :
  agree RS RA (m1 s1) (m2 s2) ->
  (forall a1 a2 t1 t2, RA a1 a2 -> RS t1 t2 -> agree RS RB (k1 a1 t1) (k2 a2 t2)) ->
  agree RS RB (bind m1 k1 s1) (bind m2 k2 s2).
Proof.
  unfold bind. intros Hm Hk.
  destruct (m1 s1) as [a1 t1| |], (m2 s2) as [a2 t2| |]; simpl in Hm; try contradiction.
  - destruct Hm. now apply Hk.
  - assumption.
  - exact I.
Qed.

Lemma agree_ret {S A : Type} (RS : S -> S -> Prop) (RA : A -> A -> Prop) a1 a2 s1 s2 :
  RA a1 a2 -> RS s1 s2 -> agree RS RA (ret a1 s1) (ret a2 s2).
Proof. now split. Qed.

Lemma agree_this s1 s2 :
  alike s1 s2 -> agree alike flag_blind (this s1) (this s2).
Proof. intros H. split; [apply H | exact H]. Qed.

Lemma agree_lift {A : Type} (m1 m2 : M World A) s1 s2 :
  flag_blind (recv s1) (recv s2) ->
  agree log_blind eq (m1 (world s1)) (m2 (world s2)) ->
  agree alike eq (lift m1 s1) (lift m2 s2).
Proof.
  unfold lift. intros Hu Hm.
  destruct (m1 (world s1)), (m2 (world s2)); simpl in *; try contradiction; auto.
  destruct Hm as [-> Hw]. split; [reflexivity | split; assumption].
Qed.

Lemma agree_store_socket c s1 s2 :
  alike s1 s2 -> agree alike eq (store_socket c s1) (store_socket c s2).
Proof.
  intros [[Hs Ha] Hw]. unfold store_socket.
  split; [reflexivity | split; [split; [reflexivity | exact Ha] | exact Hw]].
Qed.

(** The library reads the world but never the diagnostic log. *)
Ltac same_world :=
  match goal with
  | w1 : World, w2 : World |- log_blind _ _ -> _ =>
      destruct w1, w2; intros (He & Ht & Hc); simpl in He, Ht, Hc; subst
  end.

Lemma agree_ResolveUDPAddr a w1 w2 :
  log_blind w1 w2 ->
  agree log_blind eq (net.ResolveUDPAddr a w1) (net.ResolveUDPAddr a w2).
Proof.
  same_world. unfold net.ResolveUDPAddr, now. simpl.
  destruct (resolver _ _ _); simpl; repeat split.
Qed.

Lemma agree_DialUDP to w1 w2 :
  log_blind w1 w2 ->
  agree log_blind eq (net.DialUDP to w1) (net.DialUDP to w2).
Proof.
  same_world. unfold net.DialUDP, now. simpl.
  destruct to; [destruct (dialer _ _ _)|]; simpl; repeat split.
Qed.

Lemma agree_Conn_Write c b w1 w2 :
  log_blind w1 w2 ->
  agree log_blind eq (net.Conn_Write c b w1) (net.Conn_Write c b w2).
Proof.
  same_world. unfold net.Conn_Write, now. simpl.
  destruct c; [|reflexivity].
  destruct (_ !! _) as [k|]; [destruct (live k); [destruct (transport _ _ _ _)|]|];
    simpl; repeat split.
Qed.

Lemma agree_Conn_Close c w1 w2 :
  log_blind w1 w2 ->
  agree log_blind eq (net.Conn_Close c w1) (net.Conn_Close c w2).
Proof.
  same_world. unfold net.Conn_Close, now. simpl.
  destruct c; [|reflexivity].
  destruct (_ !! _) as [k|]; [destruct (live k)|]; simpl; repeat split.
Qed.

Lemma agree_Hostname w1 w2 :
  log_blind w1 w2 -> agree log_blind eq (os.Hostname w1) (os.Hostname w2).
Proof.
  same_world. unfold os.Hostname, now. simpl.
  destruct (hostname _ _); simpl; repeat split.
Qed.

Lemma agree_Now_String w1 w2 :
  log_blind w1 w2 -> agree log_blind eq (time.Now_String w1) (time.Now_String w2).
Proof. same_world. unfold time.Now_String, now. simpl. repeat split. Qed.

(** A diagnostic that one run prints and the other may not. *)
Lemma agree_diagnostic (b1 b2 : bool) f1 f2 args1 args2 s1 s2 :
  alike s1 s2 ->
  agree alike eq
    ((if b1 then lift (log.Printf f1 args1) else ret tt) s1)
    ((if b2 then lift (log.Printf f2 args2) else ret tt) s2).
Proof.
  intros [Hu (He & Ht & Hc)].
  destruct b1, b2; simpl; repeat split; solve [assumption | apply Hu].
Qed.

Lemma agree_Close s1 s2 :
  alike s1 s2 -> agree alike eq (Close s1) (Close s2).
Proof.
  intros [Hu Hw]. rewrite !Close_unfold.
  destruct Hu as [Hs Ha]. rewrite Hs.
  apply agree_lift; [now split | now apply agree_Conn_Close].
Qed.

Lemma agree_open s1 s2 :
  alike s1 s2 -> agree alike eq (open s1) (open s2).
Proof.
  intros H. unfold open.
  eapply agree_bind; [apply agree_this, H|].
  intros u1 u2 t1 t2 [Hs Ha] Ht. rewrite Ha.
  eapply agree_bind;
    [apply agree_lift; [apply Ht | apply agree_ResolveUDPAddr, Ht]|].
  intros [a e] ? t3 t4 <- Ht'. destruct e; cbn [is_nil]; [now apply agree_ret|].
  eapply agree_bind;
    [apply agree_lift; [apply Ht' | apply agree_DialUDP, Ht']|].
  intros [c e] ? t5 t6 <- Ht''. destruct e; cbn [is_nil]; [now apply agree_ret|].
  eapply agree_bind; [apply agree_store_socket, Ht''|].
  intros. now apply agree_ret.
Qed.

Lemma agree_Reopen s1 s2 :
  alike s1 s2 -> agree alike eq (Reopen s1) (Reopen s2).
Proof.
  intros H. unfold Reopen.
  eapply agree_bind; [apply agree_Close, H|].
  intros e ? t1 t2 <- Ht. destruct e; cbn [is_nil]; [now apply agree_ret|].
  eapply agree_bind; [apply agree_open, Ht|].
  intros e ? t3 t4 <- Ht'. destruct e; cbn [is_nil]; now apply agree_ret.
Qed.

Lemma agree_slice_from {A : Type} (l : list A) i s1 s2 :
  alike s1 s2 -> agree alike eq (slice_from l i s1) (slice_from l i s2).
Proof.
  intros H. unfold slice_from. destruct (_ && _); [now apply agree_ret | reflexivity].
Qed.

Lemma agree_write_loop fuel b n total e s1 s2 :
  alike s1 s2 ->
  agree alike eq (write_loop fuel b n total e s1) (write_loop fuel b n total e s2).
Proof.
  revert total e s1 s2.
  induction fuel as [|fuel IH]; intros total e s1 s2 H; simpl;
    destruct (_ && _); try (now apply agree_ret); try exact I.
  eapply agree_bind; [apply agree_this, H|].
  intros u1 u2 t1 t2 [Hs Ha] Ht. rewrite Hs.
  eapply agree_bind; [apply agree_slice_from, Ht|].
  intros rest ? t3 t4 <- Ht'.
  eapply agree_bind;
    [apply agree_lift; [apply Ht' | apply agree_Conn_Write, Ht']|].
  intros [k e'] ? t5 t6 <- Ht''. now apply IH.
Qed.

Lemma agree_Write fuel b s1 s2 :
  alike s1 s2 -> agree alike eq (Write fuel b s1) (Write fuel b s2).
Proof.
  intros H. unfold Write.
  eapply agree_bind; [apply agree_write_loop, H|].
  intros [total [cause|]] ? t1 t2 <- Ht; [|now apply agree_ret].
  eapply agree_bind; [apply agree_this, Ht|].
  intros u1 u2 t3 t4 Hu Ht'.
  eapply agree_bind; [apply agree_diagnostic, Ht'|].
  intros _ _ t5 t6 _ Ht''.
  eapply agree_bind; [apply agree_Close, Ht''|].
  intros e ? t7 t8 <- Hc. destruct e; cbn [is_nil]; [|now apply agree_ret].
  eapply agree_bind; [apply agree_this, Hc|].
  intros v1 v2 t9 t10 Hv Hd.
  eapply agree_bind; [apply agree_diagnostic, Hd|].
  intros. now apply agree_ret.
Qed.

Lemma agree_Log fuel msg s1 s2 :
  alike s1 s2 -> agree alike eq (Log fuel msg s1) (Log fuel msg s2).
Proof.
  intros H. unfold Log.
  eapply agree_bind; [apply agree_lift; [apply H | apply agree_Hostname, H]|].
  intros [host e] ? t1 t2 <- Ht.
  eapply agree_bind; [apply agree_lift; [apply Ht | apply agree_Now_String, Ht]|].
  intros stamp ? t3 t4 <- Ht'. now apply agree_Write.
Qed.

(** C7. Take two writers that differ at most in [enableLogging], in worlds
    that differ at most in what the diagnostic log holds.  Then [Log],
    [Write], [Close] and [Reopen] end the same way on both: the same byte
    count and the same error, or the same panic, or both still looping;
    and the writers and worlds they leave are again equal up to the flag and
    the log. *)
Theorem logging_flag_does_not_interfere fuel msg b s1 s2 :
  alike s1 s2 ->
  agree alike eq (Log fuel msg s1) (Log fuel msg s2)
  /\ agree alike eq (Write fuel b s1) (Write fuel b s2)
  /\ agree alike eq (Close s1) (Close s2)
  /\ agree alike eq (Reopen s1) (Reopen s2).
Proof.
  intros H. split; [|split; [|split]].
  - now apply agree_Log.
  - now apply agree_Write.
  - now apply agree_Close.
  - now apply agree_Reopen.
Qed.

Lemma logging_flag_does_not_interfere_witness :
  agree alike eq (Log 1 "test" (dialled refusing true))
                 (Log 1 "test" (dialled refusing false))
  /\ agree alike eq (Write 1 ["a"%byte] (dialled refusing true))
                    (Write 1 ["a"%byte] (dialled refusing false))
  /\ agree alike eq (Close (dialled refusing true)) (Close (dialled refusing false))
  /\ agree alike eq (Reopen (dialled refusing true)) (Reopen (dialled refusing false)).
Proof.
  apply (logging_flag_does_not_interfere 1 "test" ["a"%byte]
           (dialled refusing true) (dialled refusing false)).
  repeat split.
Defined.

(** ** The write loop *)

Lemma wrap_int_id z : - 2 ^ 63 <= z <= max_int -> wrap_int z = z.
Proof.
  unfold wrap_int, max_int. intros H.
  rewrite Z.mod_small; lia.
Qed.

Lemma len_drop {A : Type} (l : list A) i :
  0 <= i <= len l -> len (drop (Z.to_nat i) l) = len l - i.
Proof. unfold len. intros H. rewrite length_drop. lia. Qed.

(** What a socket write that returned has done. *)
Lemma Conn_Write_inv c b w k e w' :
  net.Conn_Write c b w = Returns (k, e) w' ->
  exists h, c = Some h /\ 0 <= k <= len b /\ w' = emit (EvWrite h b) w.
Proof.
  unfold net.Conn_Write, len. destruct c as [h|]; [|discriminate].
  intros H. exists h. split; [reflexivity|].
  destruct (conns w !! h) as [conn|];
    [destruct (live conn); [destruct (transport _ _ _ _) as [n e0]|]|];
    injection H as <- _ <-; split; trivial; lia.
Qed.

Lemma write_loop_done fuel b n total e s :
  (total <? n) && is_nil e = false ->
  write_loop fuel b n total e s = Returns (total, e) s.
Proof. intros H. destruct fuel; simpl; rewrite H; reflexivity. Qed.

Lemma write_loop_step fuel b total s :
  0 <= total < len b ->
  write_loop (S fuel) b (len b) total None s
  = match net.Conn_Write (socket (recv s)) (drop (Z.to_nat total) b) (world s) with
    | Returns (k, e) w' =>
        write_loop fuel b (len b) (int_add total k) e {| recv := recv s; world := w' |}
    | Panics r => Panics r
    | OutOfFuel => OutOfFuel
    end.
Proof.
  intros H. simpl.
  replace (total <? len b) with true by (symmetry; apply Z.ltb_lt; lia).
  cbn [andb is_nil]. unfold bind at 1, this. unfold bind at 1, slice_from.
  replace ((0 <=? total) && (total <=? len b)) with true
    by (symmetry; apply andb_true_iff; split; apply Z.leb_le; lia).
  unfold ret, bind, lift. cbn [world recv].
  destruct (net.Conn_Write _ _ _) as [[k e] w'| |]; reflexivity.
Qed.

(** The loop only writes: it returns a count between where it started and
    the length of the payload, the full length unless a write reported an
    error; it leaves the receiver, the connections and the log alone and
    closes nothing. *)
Lemma write_loop_spec fuel b : forall total e s t' e' s1,
  len b <= max_int ->
  0 <= total <= len b ->
  write_loop fuel b (len b) total e s = Returns (t', e') s1 ->
  total <= t' <= len b
  /\ (e' = None -> t' = len b)
  /\ (e = None -> e' <> None -> exists c, socket (recv s) = Some c)
  /\ recv s1 = recv s
  /\ env (world s1) = env (world s)
  /\ conns (world s1) = conns (world s)
  /\ stdlog (world s1) = stdlog (world s)
  /\ closes (trace (world s1)) = closes (trace (world s)).
Proof.
  induction fuel as [|fuel IH]; intros total e s t' e' s1 Hmax Ht H.
  - simpl in H. destruct ((total <? len b) && is_nil e) eqn:Hc; [discriminate|].
    injection H as <- <- <-.
    repeat split; try lia; try congruence.
    intros ->. apply andb_false_iff in Hc as [Hc|Hc]; [|discriminate].
    apply Z.ltb_ge in Hc. lia.
  - destruct ((total <? len b) && is_nil e) eqn:Hc.
    + apply andb_true_iff in Hc as [Hlt He]. apply Z.ltb_lt in Hlt.
      destruct e; [discriminate|].
      rewrite write_loop_step in H by lia.
      destruct (net.Conn_Write _ _ _) as [[k e1] w'| |] eqn:Hw; try discriminate.
      apply Conn_Write_inv in Hw as (h & Hh & Hk & ->).
      rewrite len_drop in Hk by lia.
      unfold int_add in H. rewrite wrap_int_id in H by (unfold max_int in *; lia).
      apply IH in H; [|assumption|lia]. cbn [recv world] in H.
      destruct H as (H1 & H2 & _ & H4 & H5 & H6 & H7 & H8).
      repeat split; try assumption; try lia.
      * intros _ _. now exists h.
      * rewrite H8. unfold closes, emit. cbn [trace].
        rewrite filter_app, length_app. simpl. lia.
    + rewrite write_loop_done in H by assumption.
      injection H as <- <- <-.
      repeat split; try lia; try congruence.
      intros ->. apply andb_false_iff in Hc as [Hc|Hc]; [|discriminate].
      apply Z.ltb_ge in Hc. lia.
Qed.

(** When no socket write reports an error, [Write] returns the length of
    the payload and nil. *)
Lemma Write_all_written fuel b s n s1 :
  len b <= max_int ->
  write_loop fuel b (len b) 0 None s = Returns (n, None) s1 ->
  Write fuel b s = Returns (len b, None) s1.
Proof.
  intros Hmax H. unfold Write. rewrite (bind_returns _ _ _ _ _ H).
  apply write_loop_spec in H as (_ & H & _); [|assumption|unfold len; lia].
  now rewrite (H eq_refl).
Qed.

(** A close of a connection object always returns, and is one call. *)
Lemma Conn_Close_returns c w :
  exists r w',
    net.Conn_Close (Some c) w = Returns r w'
    /\ env w' = env w
    /\ trace w' = trace w ++ [EvClose c]
    /\ stdlog w' = stdlog w.
Proof.
  unfold net.Conn_Close.
  destruct (conns w !! c) as [k|]; [destruct (live k)|]; eauto 10.
Qed.

(** The diagnostic log is invisible to it. *)
Lemma Conn_Close_append_log c line w r w' :
  net.Conn_Close c w = Returns r w' ->
  net.Conn_Close c (append_log line w) = Returns r (append_log line w').
Proof.
  unfold net.Conn_Close. destruct c as [h|]; [|discriminate].
  cbn [append_log conns env now trace].
  destruct (conns w !! h) as [k|]; [destruct (live k)|];
    intros H; injection H as <- <-; reflexivity.
Qed.

Lemma closes_snoc tr c : closes (tr ++ [EvClose c]) = S (closes tr).
Proof. unfold closes. rewrite filter_app, length_app. simpl. lia. Qed.

(** When a socket write reports an error, [Write] closes the socket once
    and returns the partial count together with the result of that close:
    the close error when the close fails and, the write error being
    overwritten, nil when the close succeeds. *)
Lemma Write_after_failed_write fuel b s n cause s1 :
  len b <= max_int ->
  write_loop fuel b (len b) 0 None s = Returns (n, Some cause) s1 ->
  exists c r w2 s2,
    socket (recv s) = Some c
    /\ net.Conn_Close (Some c) (world s1) = Returns r w2
    /\ Write fuel b s = Returns (n, r) s2
    /\ 0 <= n <= len b
    /\ recv s2 = recv s
    /\ log_blind w2 (world s2)
    /\ trace (world s2) = trace (world s1) ++ [EvClose c]
    /\ closes (trace (world s2)) = S (closes (trace (world s))).
Proof.
  intros Hmax H. unfold Write. rewrite (bind_returns _ _ _ _ _ H).
  apply write_loop_spec in H
    as (Hn & _ & Hc & Hu & _ & _ & _ & Hcl); [|assumption|unfold len; lia].
  destruct (Hc eq_refl) as [c Hsock]; [discriminate|].
  destruct (Conn_Close_returns c (world s1)) as (r & w2 & Hclose & He & Ht & Hl).
  exists c, r, w2. destruct s1 as [u1 w1]. cbn [recv world] in *. subst u1.
  unfold bind at 1, this at 1. cbn [recv]. unfold bind at 1.
  destruct (enableLogging (recv s)) eqn:Hflag.
  - unfold lift at 1, log.Printf. cbn [world recv].
    set (line := fmt.Sprintf _ _).
    unfold bind at 1, Close, bind at 1, this at 1, lift. cbn [recv world].
    rewrite Hsock, (Conn_Close_append_log _ line _ _ _ Hclose).
    destruct r as [e|]; cbn [is_nil];
      unfold bind, this, log.Printf, ret; cbn [recv world]; rewrite ?Hflag;
      eexists; repeat split; cbn [recv world append_log trace env conns];
      try reflexivity; try lia; try assumption;
      rewrite Ht, closes_snoc; congruence.
  - unfold ret at 1.
    unfold bind at 1, Close, bind at 1, this at 1, lift. cbn [recv world].
    rewrite Hsock, Hclose.
    destruct r as [e|]; cbn [is_nil];
      unfold bind, this, log.Printf, ret; cbn [recv world]; rewrite ?Hflag;
      eexists; repeat split; cbn [recv world append_log trace env conns];
      try reflexivity; try lia; try assumption;
      rewrite Ht, closes_snoc; congruence.
Qed.

(** ** Termination under progress *)

Lemma is_open_emit ev w c : is_open (emit ev w) c <-> is_open w c.
Proof. reflexivity. Qed.

(** A transport that makes progress lets the loop finish within as many
    iterations as bytes are left. *)
Lemma write_loop_terminates c b : forall fuel total s,
  len b <= max_int ->
  0 <= total <= len b ->
  len b - total <= Z.of_nat fuel ->
  socket (recv s) = Some c ->
  is_open (world s) c ->
  makes_progress (env (world s)) c ->
  exists s1, write_loop fuel b (len b) total None s = Returns (len b, None) s1.
Proof.
  induction fuel as [|fuel IH]; intros total s Hmax Ht Hf Hs Ho Hp.
  - assert (total = len b) as -> by lia.
    exists s. rewrite write_loop_done; [reflexivity|].
    apply andb_false_iff. left. apply Z.ltb_ge. lia.
  - destruct (Z.eq_dec total (len b)) as [->|Hne].
    + exists s. rewrite write_loop_done; [reflexivity|].
      apply andb_false_iff. left. apply Z.ltb_ge. lia.
    + rewrite write_loop_step by lia.
      assert (Hrest : drop (Z.to_nat total) b <> []).
      { intros E. apply (f_equal len) in E. rewrite len_drop in E by lia.
        change (len []) with 0 in E. lia. }
      destruct (Hp (now (world s)) _ Hrest) as [k Hk].
      destruct Ho as [a Ha].
      unfold net.Conn_Write. rewrite Hs, Ha. cbn [live]. rewrite Hk.
      set (n := Z.of_nat (Nat.min (S k) (length (drop (Z.to_nat total) b)))).
      assert (Hn : 1 <= n <= len b - total).
      { subst n. rewrite <- len_drop by lia. unfold len.
        assert (length (drop (Z.to_nat total) b) <> 0%nat)
          by (destruct (drop (Z.to_nat total) b); simpl; congruence).
        lia. }
      unfold int_add. rewrite wrap_int_id by (unfold max_int in *; lia).
      apply IH; cbn [recv world]; try assumption; try lia.
      now exists a.
Qed.

(** With such a transport and an open socket, [Write] returns the length
    of the payload and nil, given one unit of fuel per byte. *)
Lemma Write_terminates c b s :
  len b <= max_int ->
  socket (recv s) = Some c ->
  is_open (world s) c ->
  makes_progress (env (world s)) c ->
  exists s1, Write (length b) b s = Returns (len b, None) s1.
Proof.
  intros Hmax Hs Ho Hp.
  destruct (write_loop_terminates c b (length b) 0 s) as [s1 H];
    try assumption; try (unfold len; lia).
  exists s1. eapply Write_all_written; eassumption.
Qed.

(** ** Logging under a transport that makes progress *)

Lemma string_append_assoc (a b c : string) : (a +:+ b) +:+ c = a +:+ (b +:+ c).
Proof.
  induction a as [|x a IH]; [reflexivity|].
  change (String x ((a +:+ b) +:+ c) = String x (a +:+ (b +:+ c))).
  now f_equal.
Qed.

(** Whatever the operands, the envelope ends in a closing brace and one
    newline. *)
Lemma envelope_trailing_newline stamp msg host :
  exists body, envelope stamp msg host = body +:+ "}" +:+ newline.
Proof.
  exists ("{" +:+ dquote +:+ "@timestamp" +:+ dquote +:+ ":" +:+ dquote +:+ stamp
          +:+ dquote +:+ ", " +:+ dquote +:+ "@version" +:+ dquote +:+ ":" +:+ dquote
          +:+ "2" +:+ dquote +:+ ", " +:+ dquote +:+ "message" +:+ dquote +:+ ":"
          +:+ dquote +:+ msg +:+ dquote +:+ ", " +:+ dquote +:+ "host" +:+ dquote
          +:+ ":" +:+ dquote +:+ host +:+ dquote).
  unfold envelope. now rewrite !string_append_assoc.
Qed.

Lemma Hostname_inv w host err w1 :
  os.Hostname w = Returns (host, err) w1 -> w1 = emit EvHostname w.
Proof.
  unfold os.Hostname. destruct (hostname _ _); intros H; now injection H.
Qed.

(** With an open socket and a transport that makes progress, [Log] returns
    the length of the envelope and nil. *)
Lemma Log_terminates c msg s host err w1 :
  os.Hostname (world s) = Returns (host, err) w1 ->
  len (list_byte_of_string (envelope (wall_clock (env w1) (now w1)) msg host)) <= max_int ->
  socket (recv s) = Some c ->
  is_open (world s) c ->
  makes_progress (env (world s)) c ->
  exists s',
    Log (length (list_byte_of_string (envelope (wall_clock (env w1) (now w1)) msg host)))
        msg s
    = Returns (len (list_byte_of_string
                      (envelope (wall_clock (env w1) (now w1)) msg host)), None) s'.
Proof.
  intros H Hmax Hs Ho Hp. rewrite (Log_unfold _ _ _ _ _ _ H).
  apply Hostname_inv in H as ->.
  apply (Write_terminates c); assumption.
Qed.

(** ** What [Write] returns after a failed write *)

(** C1. The transport refuses the datagram: the socket write returns
    [(0, connection refused)].  [Write] closes the socket once, the close
    succeeds, and [Write] returns [(0, nil)]: the error of the write has
    been overwritten by the nil result of [Close] and is not returned. *)
Theorem Write_drops_the_write_error :
  net.Conn_Write (Some 0%nat) hello (world (dialled refusing false))
  = Returns (0, Some (mkError "write: connection refused"))
      (emit (EvWrite 0 hello) (world (dialled refusing false)))
  /\ exists s',
       Write 1 hello (dialled refusing false) = Returns (0, None) s'
       /\ trace (world s')
          = trace (world (dialled refusing false)) ++ [EvWrite 0 hello; EvClose 0].
Proof.
  split; [reflexivity|]. eexists. split; reflexivity.
Qed.

(** C2. The transport takes two bytes of five without an error and then
    refuses the rest.  The loop writes the two bytes, then the remaining
    three-byte suffix, and stops on the error; [Write] returns a nil error
    with a byte count of 2, not 5. *)
Theorem Write_returns_nil_with_short_count :
  exists s',
    Write 5 hello (dialled stuttering false) = Returns (2, None) s'
    /\ trace (world s')
       = trace (world (dialled stuttering false))
         ++ [EvWrite 0 hello; EvWrite 0 (drop 2 hello); EvClose 0]
    /\ len hello = 5.
Proof.
  eexists. repeat split; reflexivity.
Qed.

(** C3. The payload of [Log "test"] is the envelope and ends in one
    newline, but when the transport refuses it and the close succeeds,
    [Log] returns a nil error with a byte count of 0, while the payload is
    95 bytes long. *)
Theorem Log_returns_nil_with_short_count :
  exists s',
    Log 1 "test" (dialled refusing false) = Returns (0, None) s'
    /\ trace (world s')
       = trace (world (dialled refusing false))
         ++ [EvHostname; EvNow;
             EvWrite 0 (list_byte_of_string
                          (envelope (wall_clock refusing 3) "test" "box"));
             EvClose 0]
    /\ len (list_byte_of_string (envelope (wall_clock refusing 3) "test" "box")) = 95.
Proof.
  eexists. repeat split; vm_compute; reflexivity.
Qed.

(** * Further properties of the package *)

(** ** Construction and reopening, case by case *)

Lemma not_open_lookup w c :
  ~ is_open w c ->
  match conns w !! c with
  | Some k => live k = false
  | None => True
  end.
Proof.
  intros H. destruct (conns w !! c) as [[a l]|] eqn:E; [|exact I].
  destruct l; [|reflexivity]. exfalso. apply H. now exists a.
Qed.

Lemma lookup_not_open w c :
  match conns w !! c with
  | Some k => live k = false
  | None => True
  end ->
  ~ is_open w c.
Proof.
  intros H [a Ha]. rewrite Ha in H. discriminate.
Qed.

(** A successful close of an open connection, spelled out. *)
Lemma Close_open_connection s c a :
  socket (recv s) = Some c ->
  conns (world s) !! c = Some {| raddr := a; live := true |} ->
  Close s
  = Returns (closer (env (world s)) (now (world s)) c)
      {| recv := recv s;
         world := set_conns (<[c := {| raddr := a; live := false |}]> (conns (world s)))
                    (emit (EvClose c) (world s)) |}.
Proof.
  intros Hs Hc. rewrite Close_unfold. unfold lift, net.Conn_Close.
  now rewrite Hs, Hc.
Qed.

(** X1. When the address resolves and the endpoint can be created,
    [DialUDP] returns no error and a writer with the address and the flag it
    was given, holding a connection object that did not exist before and is
    now open, dialled to the resolved address; nothing is logged. *)
Theorem DialUDP_opens addr flag w a :
  resolver (env w) (now w) addr = inr a ->
  dialer (env w) (now (emit (EvResolve addr) w)) a = None ->
  exists w',
    DialUDP addr flag w
    = Returns (Some {| socket := Some (length (conns w));
                       address := addr; enableLogging := flag |}, None) w'
    /\ conns w !! length (conns w) = None
    /\ conns w' = conns w ++ [{| raddr := a; live := true |}]
    /\ is_open w' (length (conns w))
    /\ trace w' = trace w ++ [EvResolve addr; EvDial (Some a)]
    /\ stdlog w' = stdlog w.
Proof.
  intros Hr Hd. eexists. split.
  - unfold DialUDP, bind, on. rewrite open_cases. cbn [recv world address].
    rewrite Hr. cbn zeta. rewrite Hd. reflexivity.
  - cbn [world conns trace stdlog set_conns emit].
    split; [apply lookup_ge_None; lia|]. split; [reflexivity|].
    split; [|split; [now rewrite <- app_assoc | reflexivity]].
    exists a. cbn [conns set_conns]. rewrite lookup_app_r by lia.
    now rewrite Nat.sub_diag.
Qed.

Lemma DialUDP_opens_witness :
  exists w',
    DialUDP "127.0.0.1:9999" true (boot healthy)
    = Returns (Some {| socket := Some (length (conns (boot healthy)));
                       address := "127.0.0.1:9999"; enableLogging := true |}, None) w'
    /\ conns (boot healthy) !! length (conns (boot healthy)) = None
    /\ conns w' = conns (boot healthy) ++ [{| raddr := localhost; live := true |}]
    /\ is_open w' (length (conns (boot healthy)))
    /\ trace w' = trace (boot healthy)
                  ++ [EvResolve "127.0.0.1:9999"; EvDial (Some localhost)]
    /\ stdlog w' = stdlog (boot healthy).
Proof.
  apply (DialUDP_opens "127.0.0.1:9999" true (boot healthy) localhost); reflexivity.
Defined.

(** X2. When the address resolves but the endpoint cannot be created,
    [DialUDP] returns the nil writer and the error of the dial; the table of
    connections is unchanged. *)
Theorem DialUDP_dial_fails addr flag w a e :
  resolver (env w) (now w) addr = inr a ->
  dialer (env w) (now (emit (EvResolve addr) w)) a = Some e ->
  exists w',
    DialUDP addr flag w = Returns (None, Some e) w'
    /\ conns w' = conns w
    /\ trace w' = trace w ++ [EvResolve addr; EvDial (Some a)].
Proof.
  intros Hr Hd. eexists. split.
  - unfold DialUDP, bind, on. rewrite open_cases. cbn [recv world address].
    rewrite Hr. cbn zeta. rewrite Hd. reflexivity.
  - cbn [world conns trace emit]. split; [reflexivity | now rewrite <- app_assoc].
Qed.

Lemma DialUDP_dial_fails_witness :
  exists w',
    DialUDP "127.0.0.1:9999" false (boot unreachable)
    = Returns (None, Some (mkError "dial udp: network is unreachable")) w'
    /\ conns w' = conns (boot unreachable)
    /\ trace w' = trace (boot unreachable)
                  ++ [EvResolve "127.0.0.1:9999"; EvDial (Some localhost)].
Proof.
  apply (DialUDP_dial_fails "127.0.0.1:9999" false (boot unreachable) localhost);
    reflexivity.
Defined.

Lemma Reopen_not_open s c :
  socket (recv s) = Some c ->
  ~ is_open (world s) c ->
  exists e,
    Close s = Returns (Some e) {| recv := recv s; world := emit (EvClose c) (world s) |}
    /\ Reopen s
       = Returns (Some e) {| recv := recv s; world := emit (EvClose c) (world s) |}.
Proof.
  intros Hs Hc.
  destruct (Conn_Close_again c (world s) (not_open_lookup _ _ Hc)) as [e He].
  exists e.
  assert (H : Close s
              = Returns (Some e) {| recv := recv s; world := emit (EvClose c) (world s) |}).
  { rewrite Close_unfold. unfold lift. now rewrite Hs, He. }
  split; [exact H|]. unfold Reopen.
  now rewrite (bind_returns _ _ _ _ _ H).
Qed.

(** X3. [Reopen] on a writer whose socket is not open returns the error of
    its first step, the close: the very error [Close] returns on that
    writer, in the state that [Close] leaves.  It stops there: the receiver
    is unchanged, nothing is resolved or dialled, and no connection is
    created.  A writer that has been closed cannot be reopened. *)
Theorem Reopen_of_closed_writer_fails s c :
  socket (recv s) = Some c ->
  ~ is_open (world s) c ->
  exists e,
    Close s = Returns (Some e) {| recv := recv s; world := emit (EvClose c) (world s) |}
    /\ Reopen s
       = Returns (Some e) {| recv := recv s; world := emit (EvClose c) (world s) |}.
Proof. exact (Reopen_not_open s c). Qed.

Lemma Reopen_of_closed_writer_fails_witness :
  exists e,
    Close (hung_up healthy false)
    = Returns (Some e)
        {| recv := recv (hung_up healthy false);
           world := emit (EvClose 0%nat) (world (hung_up healthy false)) |}
    /\ Reopen (hung_up healthy false)
       = Returns (Some e)
           {| recv := recv (hung_up healthy false);
              world := emit (EvClose 0%nat) (world (hung_up healthy false)) |}.
Proof.
  apply (Reopen_of_closed_writer_fails (hung_up healthy false) 0%nat).
  - reflexivity.
  - intros [a Ha]. discriminate Ha.
Defined.

(** X4. [Reopen] on an open writer whose close succeeds but whose address
    no longer resolves returns the resolver's error.  The writer keeps its
    old socket, which is now closed, and no connection is created: the
    writer is left closed. *)
Theorem Reopen_resolution_fails s c a e :
  socket (recv s) = Some c ->
  conns (world s) !! c = Some {| raddr := a; live := true |} ->
  closer (env (world s)) (now (world s)) c = None ->
  resolver (env (world s)) (now (emit (EvClose c) (world s))) (address (recv s)) = inl e ->
  exists s',
    Reopen s = Returns (Some e) s'
    /\ recv s' = recv s
    /\ ~ is_open (world s') c
    /\ conns (world s') = <[c := {| raddr := a; live := false |}]> (conns (world s))
    /\ trace (world s')
       = trace (world s) ++ [EvClose c; EvResolve (address (recv s))].
Proof.
  intros Hs Hc Hcl Hr. eexists. split.
  - unfold Reopen.
    rewrite (bind_returns _ _ _ _ _ (Close_open_connection s c a Hs Hc)).
    rewrite Hcl. cbn [is_nil]. unfold bind. rewrite open_cases.
    cbn [recv world]. unfold now, emit, set_conns in Hr |- *.
    cbn [trace env conns stdlog] in Hr |- *. rewrite Hr. reflexivity.
  - cbn [recv world conns trace].
    split; [reflexivity|]. split; [|split; [reflexivity | now rewrite <- app_assoc]].
    intros [a' Ha']. cbn [conns] in Ha'.
    rewrite list_lookup_insert_eq in Ha' by (eapply lookup_lt_Some; eassumption).
    discriminate.
Qed.

Lemma Reopen_resolution_fails_witness :
  exists s',
    Reopen (dialled forgetful false) = Returns (Some (mkError "lookup: no such host")) s'
    /\ recv s' = recv (dialled forgetful false)
    /\ ~ is_open (world s') 0%nat
    /\ conns (world s')
       = <[0%nat := {| raddr := localhost; live := false |}]>
           (conns (world (dialled forgetful false)))
    /\ trace (world s')
       = trace (world (dialled forgetful false))
         ++ [EvClose 0%nat; EvResolve (address (recv (dialled forgetful false)))].
Proof.
  apply (Reopen_resolution_fails (dialled forgetful false) 0%nat localhost); reflexivity.
Defined.

(** X5. [Reopen] on an open writer succeeds when the close succeeds, the
    address resolves and the endpoint can be created.  Afterwards the old
    connection is closed, the writer holds a new one that is open, and every
    other connection is as it was: no socket is leaked. *)
Theorem Reopen_succeeds s c a a' :
  socket (recv s) = Some c ->
  conns (world s) !! c = Some {| raddr := a; live := true |} ->
  closer (env (world s)) (now (world s)) c = None ->
  resolver (env (world s)) (now (emit (EvClose c) (world s))) (address (recv s)) = inr a' ->
  dialer (env (world s))
    (now (emit (EvResolve (address (recv s))) (emit (EvClose c) (world s)))) a' = None ->
  exists s',
    Reopen s = Returns None s'
    /\ socket (recv s') = Some (length (conns (world s)))
    /\ conns (world s')
       = <[c := {| raddr := a; live := false |}]> (conns (world s))
         ++ [{| raddr := a'; live := true |}]
    /\ ~ is_open (world s') c
    /\ is_open (world s') (length (conns (world s)))
    /\ forall c', c' <> c -> (c' < length (conns (world s)))%nat ->
         conns (world s') !! c' = conns (world s) !! c'.
Proof.
  intros Hs Hc Hcl Hr Hd.
  assert (Hlt : (c < length (conns (world s)))%nat)
    by (eapply lookup_lt_Some; eassumption).
  eexists. split.
  - unfold Reopen.
    rewrite (bind_returns _ _ _ _ _ (Close_open_connection s c a Hs Hc)).
    rewrite Hcl. cbn [is_nil]. unfold bind. rewrite open_cases.
    cbn [recv world]. unfold now, emit, set_conns in Hr, Hd |- *.
    cbn [trace env conns stdlog] in Hr, Hd |- *.
    rewrite Hr. cbn zeta. rewrite Hd. reflexivity.
  - cbn [recv world conns socket].
    rewrite length_insert.
    split; [reflexivity|]. split; [reflexivity|]. split; [|split].
    + intros [x Hx]. cbn [conns] in Hx.
      rewrite lookup_app_l in Hx by (rewrite length_insert; lia).
      rewrite list_lookup_insert_eq in Hx by lia. discriminate.
    + exists a'. cbn [conns].
      rewrite lookup_app_r by (rewrite length_insert; lia).
      now rewrite length_insert, Nat.sub_diag.
    + intros c' Hne Hc'.
      rewrite lookup_app_l by (rewrite length_insert; lia).
      now rewrite list_lookup_insert_ne by congruence.
Qed.

Lemma Reopen_succeeds_witness :
  exists s',
    Reopen (dialled healthy true) = Returns None s'
    /\ socket (recv s') = Some (length (conns (world (dialled healthy true))))
    /\ conns (world s')
       = <[0%nat := {| raddr := localhost; live := false |}]>
           (conns (world (dialled healthy true)))
         ++ [{| raddr := localhost; live := true |}]
    /\ ~ is_open (world s') 0%nat
    /\ is_open (world s') (length (conns (world (dialled healthy true))))
    /\ forall c', c' <> 0%nat -> (c' < length (conns (world (dialled healthy true))))%nat ->
         conns (world s') !! c' = conns (world (dialled healthy true)) !! c'.
Proof.
  apply (Reopen_succeeds (dialled healthy true) 0%nat localhost localhost); reflexivity.
Defined.

(** ** What a [Write] that returned has done *)

(** Closing touches one connection. *)
Lemma Conn_Close_frame c w r w' :
  net.Conn_Close (Some c) w = Returns r w' ->
  env w' = env w
  /\ stdlog w' = stdlog w
  /\ length (conns w') = length (conns w)
  /\ ~ is_open w' c
  /\ forall c', c' <> c -> conns w' !! c' = conns w !! c'.
Proof.
  intros H. pose proof (Conn_Close_not_open _ _ _ _ H) as Hn.
  apply lookup_not_open in Hn.
  revert H. unfold net.Conn_Close.
  destruct (conns w !! c) as [k|]; [destruct (live k)|];
    intros H; injection H as _ <-; cbn [env stdlog conns set_conns emit] in *;
    rewrite ?length_insert; repeat split; trivial.
  intros c' Hne. now rewrite list_lookup_insert_ne by congruence.
Qed.

(** Either every write went through, or one reported an error. *)
Lemma Write_inv fuel b s n e s' :
  len b <= max_int ->
  Write fuel b s = Returns (n, e) s' ->
  (write_loop fuel b (len b) 0 None s = Returns (n, None) s' /\ n = len b /\ e = None)
  \/ (exists cause s1, write_loop fuel b (len b) 0 None s = Returns (n, Some cause) s1).
Proof.
  intros Hmax H. pose proof H as H0. unfold Write in H0.
  apply bind_inv in H0 as ([t [cause|]] & s1 & Hl & Hk).
  - right. exists cause, s1.
    destruct (Write_after_failed_write _ _ _ _ _ _ Hmax Hl)
      as (c & r & w2 & s2 & _ & _ & HW & _).
    rewrite HW in H. injection H as -> _ _. assumption.
  - left. injection Hk as <- <- <-.
    pose proof Hl as Hl'.
    apply write_loop_spec in Hl' as (_ & Hfull & _); [|assumption|unfold len; lia].
    rewrite (Hfull eq_refl) in *. now repeat split.
Qed.

(** X6. The byte count [Write] returns is never negative and never more
    than the length of the payload, whatever the transport answers. *)
Theorem Write_count_bounds fuel b s n e s' :
  len b <= max_int ->
  Write fuel b s = Returns (n, e) s' ->
  0 <= n <= len b.
Proof.
  intros Hmax H.
  destruct (Write_inv _ _ _ _ _ _ Hmax H) as [(_ & -> & _)|(cause & s1 & Hl)].
  - unfold len. lia.
  - apply write_loop_spec in Hl as (Hn & _); [lia|assumption|unfold len; lia].
Qed.

Lemma Write_count_bounds_witness : 0 <= 2 <= len hello.
Proof.
  refine (Write_count_bounds 5 hello (dialled stuttering false) 2 None
            {| recv := _; world := _ |} _ _).
  - vm_compute. discriminate.
  - reflexivity.
Defined.

(** What a [Write] that returned short of the payload has done. *)
Lemma Write_short fuel b s n e s' :
  len b <= max_int ->
  Write fuel b s = Returns (n, e) s' ->
  n < len b ->
  exists c,
    socket (recv s) = Some c
    /\ recv s' = recv s
    /\ ~ is_open (world s') c
    /\ closes (trace (world s')) = S (closes (trace (world s))).
Proof.
  intros Hmax H Hlt.
  destruct (Write_inv _ _ _ _ _ _ Hmax H) as [(_ & -> & _)|(cause & s1 & Hl)]; [lia|].
  destruct (Write_after_failed_write _ _ _ _ _ _ Hmax Hl)
    as (c & r & w2 & s2 & Hs & Hclose & HW & _ & Hu & (_ & _ & Hc) & _ & Hcl).
  rewrite HW in H. injection H as -> ->.
  exists c. repeat split; try assumption.
  apply Conn_Close_frame in Hclose as (_ & _ & _ & Hno & _).
  intros [a Ha]. apply Hno. exists a. now rewrite Hc.
Qed.

(** X7. A [Write] that returns a byte count short of the payload has
    closed the socket of its writer, by exactly one close, and has left the
    receiver as it was: the writer is closed, error returned or not. *)
Theorem Write_short_count_closes fuel b s n e s' :
  len b <= max_int ->
  Write fuel b s = Returns (n, e) s' ->
  n < len b ->
  exists c,
    socket (recv s') = Some c
    /\ recv s' = recv s
    /\ ~ is_open (world s') c
    /\ closes (trace (world s')) = S (closes (trace (world s))).
Proof.
  intros Hmax H Hlt.
  destruct (Write_short _ _ _ _ _ _ Hmax H Hlt) as (c & Hs & Hu & Hno & Hcl).
  exists c. rewrite Hu. auto.
Qed.

Lemma Write_short_count_closes_witness :
  exists c,
    socket (recv (hung_up stuttering false)) = Some c
    /\ recv (hung_up stuttering false) = recv (dialled stuttering false)
    /\ ~ is_open
         (emit (EvClose 0%nat)
            (set_conns [{| raddr := localhost; live := false |}]
               (emit (EvWrite 0 (drop 2 hello))
                  (emit (EvWrite 0 hello) (world (dialled stuttering false)))))) c
    /\ closes (trace
         (emit (EvClose 0%nat)
            (set_conns [{| raddr := localhost; live := false |}]
               (emit (EvWrite 0 (drop 2 hello))
                  (emit (EvWrite 0 hello) (world (dialled stuttering false)))))))
       = S (closes (trace (world (dialled stuttering false)))).
Proof.
  refine (Write_short_count_closes 5 hello (dialled stuttering false) 2 None
            {| recv := recv (hung_up stuttering false);
               world := emit (EvClose 0%nat)
                          (set_conns [{| raddr := localhost; live := false |}]
                             (emit (EvWrite 0 (drop 2 hello))
                                (emit (EvWrite 0 hello)
                                   (world (dialled stuttering false))))) |} _ _ _).
  - vm_compute. discriminate.
  - reflexivity.
  - reflexivity.
Defined.

(** X8. After a [Write] that returned short of the payload, [Reopen]
    fails: its close finds the socket already closed by [Write], and it
    returns that error, the one [Close] returns on the writer, without
    resolving or dialling.  [Reopen] does not bring back a writer whose
    write failed. *)
Theorem Reopen_after_short_Write_fails fuel b s n e s' :
  len b <= max_int ->
  Write fuel b s = Returns (n, e) s' ->
  n < len b ->
  exists c e',
    socket (recv s') = Some c
    /\ Close s'
       = Returns (Some e') {| recv := recv s'; world := emit (EvClose c) (world s') |}
    /\ Reopen s'
       = Returns (Some e') {| recv := recv s'; world := emit (EvClose c) (world s') |}.
Proof.
  intros Hmax H Hlt.
  destruct (Write_short _ _ _ _ _ _ Hmax H Hlt) as (c & Hs & Hu & Hno & _).
  rewrite <- Hu in Hs.
  destruct (Reopen_not_open s' c Hs Hno) as (e' & HC & HR).
  exists c, e'. auto.
Qed.

Lemma Reopen_after_short_Write_fails_witness :
  exists c e',
    socket (recv (state_after (Write 1 hello (dialled refusing true)))) = Some c
    /\ Close (state_after (Write 1 hello (dialled refusing true)))
       = Returns (Some e')
           {| recv := recv (state_after (Write 1 hello (dialled refusing true)));
              world := emit (EvClose c)
                         (world (state_after (Write 1 hello (dialled refusing true)))) |}
    /\ Reopen (state_after (Write 1 hello (dialled refusing true)))
       = Returns (Some e')
           {| recv := recv (state_after (Write 1 hello (dialled refusing true)));
              world := emit (EvClose c)
                         (world (state_after (Write 1 hello (dialled refusing true)))) |}.
Proof.
  apply (Reopen_after_short_Write_fails 1 hello (dialled refusing true) 0 None
           (state_after (Write 1 hello (dialled refusing true)))).
  - vm_compute. discriminate.
  - vm_compute. reflexivity.
  - reflexivity.
Defined.

(** ** The effects of the loop and of [Write] *)

(** Whatever the counts the transport reports, a loop that returns has left
    the receiver, the connections and the log alone, has closed nothing, and
    has only written suffixes of the payload to the socket of the writer. *)
Lemma write_loop_frame fuel b n : forall total e s r s1,
  write_loop fuel b n total e s = Returns r s1 ->
  recv s1 = recv s
  /\ env (world s1) = env (world s)
  /\ conns (world s1) = conns (world s)
  /\ stdlog (world s1) = stdlog (world s)
  /\ (e = None -> snd r <> None -> exists c, socket (recv s) = Some c)
  /\ (socket (recv s) = None -> s1 = s)
  /\ forall c, socket (recv s) = Some c ->
       exists ws, trace (world s1) = trace (world s) ++ ws
                  /\ Forall (suffix_write c b) ws.
Proof.
  induction fuel as [|fuel IH]; intros total e s r s1 H; simpl in H;
    destruct ((total <? n) && is_nil e) eqn:Hc; try discriminate.
  1, 3: injection H as <- <-; repeat split; trivial;
    [ intros -> Hr; now destruct Hr
    | intros c _; exists []; now rewrite app_nil_r ].
  apply andb_true_iff in Hc as [_ He]. destruct e; [discriminate|].
  unfold bind at 1, this in H. unfold bind at 1, slice_from in H.
  destruct ((0 <=? total) && (total <=? len b)); [|discriminate].
  unfold ret, bind, lift in H. cbn [recv world] in H.
  destruct (net.Conn_Write _ _ _) as [[k e1] w'| |] eqn:Hw; try discriminate.
  apply Conn_Write_inv in Hw as (h & Hh & _ & ->).
  apply IH in H as (H1 & H2 & H3 & H4 & _ & _ & H7). cbn [recv world] in *.
  repeat split; trivial.
  - intros _ _. now exists h.
  - rewrite Hh. discriminate.
  - intros c Hc. destruct (H7 c Hc) as (ws & Hws & HF).
    exists (EvWrite h (drop (Z.to_nat total) b) :: ws). split.
    + rewrite Hws. unfold emit. cbn [trace]. now rewrite <- app_assoc.
    + constructor; [|assumption].
      exists (Z.to_nat total). congruence.
Qed.

(** [Write] after the loop has stopped on an error, step by step: the
    first diagnostic if logging is on, the close, and the second diagnostic
    if logging is on and the close failed. *)
Lemma Write_failed_exact fuel b s n cause s1 c :
  write_loop fuel b (len b) 0 None s = Returns (n, Some cause) s1 ->
  socket (recv s1) = Some c ->
  Write fuel b s
  = match net.Conn_Close (Some c)
            (if enableLogging (recv s1)
             then append_log (write_failed_line (recv s1) b n cause) (world s1)
             else world s1) with
    | Returns r w2 =>
        Returns (n, r)
          {| recv := recv s1;
             world := if is_nil r then w2
                      else if enableLogging (recv s1)
                           then append_log (cleanup_failed_line (recv s1)) w2
                           else w2 |}
    | Panics x => Panics x
    | OutOfFuel => OutOfFuel
    end.
Proof.
  intros H Hs. unfold Write. rewrite (bind_returns _ _ _ _ _ H).
  unfold bind at 1, this at 1. unfold bind at 1.
  unfold write_failed_line, cleanup_failed_line.
  destruct (enableLogging (recv s1)) eqn:Hflag.
  - unfold lift at 1, log.Printf. cbn [world recv].
    unfold bind at 1, Close, bind at 1, this at 1, lift. cbn [recv world].
    rewrite Hs. destruct (net.Conn_Close _ _) as [[e|] w2| |]; cbn [is_nil]; trivial.
    unfold bind, this, log.Printf, ret. cbn [recv world]. now rewrite Hflag.
  - unfold ret at 1.
    unfold bind at 1, Close, bind at 1, this at 1, lift.
    rewrite Hs. destruct (net.Conn_Close _ _) as [[e|] w2| |]; cbn [is_nil]; trivial.
    unfold bind, this, ret. cbn [recv world]. now rewrite Hflag.
Qed.

(** What [Write] has done once the loop has stopped on an error: the
    result of the close is the error it returns, and the log has grown by
    the diagnostics, if logging is on. *)
Lemma Write_failed_facts fuel b s n cause s1 c r s' :
  write_loop fuel b (len b) 0 None s = Returns (n, Some cause) s1 ->
  socket (recv s1) = Some c ->
  Write fuel b s = Returns r s' ->
  exists e w2,
    r = (n, e)
    /\ net.Conn_Close (Some c) (world s1) = Returns e w2
    /\ recv s' = recv s1
    /\ env (world s') = env w2
    /\ trace (world s') = trace w2
    /\ conns (world s') = conns w2
    /\ stdlog (world s')
       = stdlog (world s1)
         ++ (if enableLogging (recv s1) then
               write_failed_line (recv s1) b n cause
               :: (if is_nil e then [] else [cleanup_failed_line (recv s1)])
             else []).
Proof.
  intros Hl Hs H. rewrite (Write_failed_exact _ _ _ _ _ _ _ Hl Hs) in H.
  destruct (Conn_Close_returns c (world s1)) as (e & w2 & Hclose & _ & _ & Hlog).
  exists e, w2.
  destruct (enableLogging (recv s1)).
  - rewrite (Conn_Close_append_log _ _ _ _ _ Hclose) in H.
    injection H as <- <-. cbn [recv world].
    destruct e; cbn [is_nil env trace conns stdlog append_log];
      rewrite Hlog, <- ?app_assoc; repeat split; reflexivity || assumption.
  - rewrite Hclose in H. injection H as <- <-. cbn [recv world].
    destruct e; cbn [is_nil]; rewrite Hlog, app_nil_r;
      repeat split; reflexivity || assumption.
Qed.

(** Everything a [Write] that returned may have changed. *)
Lemma Write_effects fuel b s r s' :
  Write fuel b s = Returns r s' ->
  recv s' = recv s
  /\ env (world s') = env (world s)
  /\ length (conns (world s')) = length (conns (world s))
  /\ (enableLogging (recv s) = false -> stdlog (world s') = stdlog (world s))
  /\ (socket (recv s) = None -> s' = s)
  /\ forall c, socket (recv s) = Some c ->
       (forall c', c' <> c -> conns (world s') !! c' = conns (world s) !! c')
       /\ exists ws cl,
            trace (world s') = trace (world s) ++ ws ++ cl
            /\ Forall (suffix_write c b) ws
            /\ (cl = [] \/ cl = [EvClose c]).
Proof.
  intros H. pose proof H as H0. unfold Write in H0.
  apply bind_inv in H0 as ([t [cause|]] & s1 & Hl & Hk).
  - clear Hk.
    pose proof (write_loop_frame _ _ _ _ _ _ _ _ Hl)
      as (Hu & He & Hc & Hlog & Hsock & _ & Htr).
    destruct (Hsock eq_refl) as [c Hs]; [discriminate|].
    assert (Hs1 : socket (recv s1) = Some c) by now rewrite Hu.
    destruct (Write_failed_facts _ _ _ _ _ _ _ _ _ Hl Hs1 H)
      as (e & w2 & _ & Hclose & F1 & F2 & F3 & F4 & F5).
    pose proof (Conn_Close_frame _ _ _ _ Hclose) as (E1 & _ & E3 & _ & E5).
    destruct (Conn_Close_returns c (world s1)) as (e' & w2' & Hclose' & _ & E6 & _).
    rewrite Hclose in Hclose'. injection Hclose' as <- <-.
    split; [congruence|]. split; [congruence|]. split; [congruence|].
    split.
    { intros Hflag. rewrite F5, Hu, Hflag, app_nil_r. assumption. }
    split; [rewrite Hs; discriminate|].
    intros c0 Hc0. rewrite Hs in Hc0. injection Hc0 as <-.
    split.
    + intros c' Hne. rewrite F4, (E5 c' Hne). now rewrite Hc.
    + destruct (Htr c Hs) as (ws & Hws & HF).
      exists ws, [EvClose c]. split; [|split; [assumption | now right]].
      now rewrite F3, E6, Hws, <- app_assoc.
  - injection Hk as <- <-.
    pose proof (write_loop_frame _ _ _ _ _ _ _ _ Hl)
      as (Hu & He & Hc & Hlog & _ & Hnil & Htr).
    split; [assumption|]. split; [assumption|]. split; [congruence|].
    split; [intros _; assumption|]. split; [assumption|].
    intros c Hs. split; [intros c' _; now rewrite Hc|].
    destruct (Htr c Hs) as (ws & Hws & HF).
    exists ws, []. rewrite app_nil_r. auto.
Qed.

(** The trace of a [Write] that returned: what the loop added, then at most
    the close. *)
Lemma Write_tail fuel b s r s' :
  Write fuel b s = Returns r s' ->
  exists t we s1 cl,
    write_loop fuel b (len b) 0 None s = Returns (t, we) s1
    /\ trace (world s') = trace (world s1) ++ cl.
Proof.
  intros H. pose proof H as H0. unfold Write in H0.
  apply bind_inv in H0 as ([t [cause|]] & s1 & Hl & Hk).
  - clear Hk. exists t, (Some cause), s1.
    pose proof (write_loop_frame _ _ _ _ _ _ _ _ Hl) as (Hu & _ & _ & _ & Hsock & _).
    destruct (Hsock eq_refl) as [c Hs]; [discriminate|].
    rewrite <- Hu in Hs.
    destruct (Write_failed_facts _ _ _ _ _ _ _ _ _ Hl Hs H)
      as (e & w2 & _ & Hclose & _ & _ & F3 & _).
    destruct (Conn_Close_returns c (world s1)) as (e' & w2' & Hclose' & _ & E6 & _).
    rewrite Hclose in Hclose'. injection Hclose' as <- <-.
    exists [EvClose c]. split; [assumption | congruence].
  - injection Hk as <- <-. exists t, None, s1, []. now rewrite app_nil_r.
Qed.

(** The lines a [Write] that returned short of the payload has logged. *)
Lemma Write_failed_log fuel b s n cause s1 e s' :
  write_loop fuel b (len b) 0 None s = Returns (n, Some cause) s1 ->
  Write fuel b s = Returns (n, e) s' ->
  stdlog (world s')
  = stdlog (world s)
    ++ (if enableLogging (recv s) then
          write_failed_line (recv s) b n cause
          :: (if is_nil e then [] else [cleanup_failed_line (recv s)])
        else []).
Proof.
  intros Hl H.
  pose proof (write_loop_frame _ _ _ _ _ _ _ _ Hl) as (Hu & _ & _ & Hlog & Hsock & _).
  destruct (Hsock eq_refl) as [c Hs]; [discriminate|].
  rewrite <- Hu in Hs.
  destruct (Write_failed_facts _ _ _ _ _ _ _ _ _ Hl Hs H)
    as (e0 & w2 & Hr & _ & _ & _ & _ & _ & F5).
  injection Hr as ->. rewrite F5. rewrite Hu. rewrite Hlog. reflexivity.
Qed.

(** The first socket write of a non-empty payload carries all of it. *)
Lemma Write_first fuel b s c r s' :
  b <> [] ->
  socket (recv s) = Some c ->
  Write (S fuel) b s = Returns r s' ->
  exists rest, trace (world s') = trace (world s) ++ EvWrite c b :: rest.
Proof.
  intros Hb Hs H.
  destruct (Write_tail _ _ _ _ _ H) as (t & we & s1 & cl & Hl & Htr).
  assert (Hpos : 0 < len b) by (destruct b; [congruence | unfold len; simpl; lia]).
  rewrite write_loop_step in Hl by lia. rewrite Hs in Hl.
  destruct (net.Conn_Write _ _ _) as [[k e1] w'| |] eqn:Hw; try discriminate.
  apply Conn_Write_inv in Hw as (h & Hh & _ & ->). injection Hh as <-.
  apply write_loop_frame in Hl as (_ & _ & _ & _ & _ & _ & Hws).
  destruct (Hws c Hs) as (ws & Hws' & _). cbn [recv world emit trace] in Hws'.
  exists (ws ++ cl). rewrite Htr, Hws'. cbn [Z.to_nat drop].
  now rewrite <- !app_assoc.
Qed.

Lemma Conn_Write_not_open c b w :
  ~ is_open w c ->
  exists e, net.Conn_Write (Some c) b w = Returns (0, Some e) (emit (EvWrite c b) w).
Proof.
  intros H. apply not_open_lookup in H. unfold net.Conn_Write.
  destruct (conns w !! c) as [k|]; [rewrite H|]; eauto.
Qed.

(** X9. [Write] of a non-empty payload on a writer whose socket is not
    open sends nothing: the one socket write is refused, the close that
    follows fails as well, and [Write] returns 0 and an error. *)
Theorem Write_on_closed_writer fuel b s c :
  b <> [] ->
  socket (recv s) = Some c ->
  ~ is_open (world s) c ->
  exists e s',
    Write (S fuel) b s = Returns (0, Some e) s'
    /\ recv s' = recv s
    /\ conns (world s') = conns (world s)
    /\ trace (world s') = trace (world s) ++ [EvWrite c b; EvClose c].
Proof.
  intros Hb Hs Hno.
  assert (Hpos : 0 < len b) by (destruct b; [congruence | unfold len; simpl; lia]).
  destruct (Conn_Write_not_open c b (world s) Hno) as [e1 Hw].
  assert (Hl : write_loop (S fuel) b (len b) 0 None s
               = Returns (0, Some e1)
                   {| recv := recv s; world := emit (EvWrite c b) (world s) |}).
  { rewrite write_loop_step by lia. rewrite Hs.
    change (drop (Z.to_nat 0) b) with b. rewrite Hw.
    rewrite write_loop_done by (cbn [is_nil]; apply andb_false_r). reflexivity. }
  rewrite (Write_failed_exact _ _ _ _ _ _ c Hl Hs). cbn [recv world].
  set (w1 := if enableLogging (recv s) then _ else _).
  assert (Hno1 : ~ is_open w1 c)
    by (subst w1; destruct (enableLogging (recv s)); exact Hno).
  destruct (Conn_Close_again c w1 (not_open_lookup _ _ Hno1)) as [e He].
  rewrite He. cbn [is_nil]. exists e. eexists. split; [reflexivity|].
  cbn [recv world]. subst w1.
  destruct (enableLogging (recv s)); cbn [conns trace emit append_log];
    rewrite <- ?app_assoc; auto.
Qed.

Lemma Write_on_closed_writer_witness :
  exists e s',
    Write 1 hello (hung_up healthy false) = Returns (0, Some e) s'
    /\ recv s' = recv (hung_up healthy false)
    /\ conns (world s') = conns (world (hung_up healthy false))
    /\ trace (world s')
       = trace (world (hung_up healthy false)) ++ [EvWrite 0 hello; EvClose 0].
Proof.
  apply (Write_on_closed_writer 0 hello (hung_up healthy false) 0%nat).
  - discriminate.
  - reflexivity.
  - intros [a Ha]. discriminate Ha.
Defined.

(** X10. With an open socket and a transport that takes at least one
    byte of whatever is left, [Write] returns the length of the payload and
    nil within one iteration per byte.  It closes nothing, logs nothing, and
    leaves the receiver and the connections as they were; the socket is
    still open. *)
Theorem Write_delivers c b s :
  len b <= max_int ->
  socket (recv s) = Some c ->
  is_open (world s) c ->
  makes_progress (env (world s)) c ->
  exists s',
    Write (length b) b s = Returns (len b, None) s'
    /\ recv s' = recv s
    /\ conns (world s') = conns (world s)
    /\ is_open (world s') c
    /\ stdlog (world s') = stdlog (world s)
    /\ closes (trace (world s')) = closes (trace (world s)).
Proof.
  intros Hmax Hs Ho Hp.
  destruct (write_loop_terminates c b (length b) 0 s) as [s1 H];
    try assumption; try (unfold len; lia).
  exists s1. split; [eapply Write_all_written; eassumption|].
  apply write_loop_spec in H
    as (_ & _ & _ & Hu & _ & Hc & Hl & Hcl); [|assumption|unfold len; lia].
  repeat split; try assumption.
  destruct Ho as [a Ha]. exists a. now rewrite Hc.
Qed.

Lemma Write_delivers_witness :
  exists s',
    Write (length hello) hello (dialled healthy true) = Returns (len hello, None) s'
    /\ recv s' = recv (dialled healthy true)
    /\ conns (world s') = conns (world (dialled healthy true))
    /\ is_open (world s') 0%nat
    /\ stdlog (world s') = stdlog (world (dialled healthy true))
    /\ closes (trace (world s')) = closes (trace (world (dialled healthy true))).
Proof.
  apply (Write_delivers 0%nat hello (dialled healthy true)).
  - vm_compute. discriminate.
  - reflexivity.
  - exists localhost. reflexivity.
  - intros t p Hp. exists (pred (length p)).
    destruct p; [congruence | reflexivity].
Defined.

(** X11. Whatever the transport answers, the calls a [Write] that returned
    has made are socket writes to the connection of its writer, each
    carrying a suffix of the payload, followed by at most one close of that
    connection.  [Write] resolves nothing, dials nothing and asks neither
    for the hostname nor for the time. *)
Theorem Write_only_writes_then_closes fuel b s c r s' :
  socket (recv s) = Some c ->
  Write fuel b s = Returns r s' ->
  exists ws cl,
    trace (world s') = trace (world s) ++ ws ++ cl
    /\ Forall (suffix_write c b) ws
    /\ (cl = [] \/ cl = [EvClose c]).
Proof.
  intros Hs H.
  apply Write_effects in H as (_ & _ & _ & _ & _ & H).
  now destruct (H c Hs).
Qed.

Lemma Write_only_writes_then_closes_witness :
  exists ws cl,
    trace (emit (EvClose 0%nat)
             (set_conns [{| raddr := localhost; live := false |}]
                (emit (EvWrite 0 (drop 2 hello))
                   (emit (EvWrite 0 hello) (world (dialled stuttering false))))))
    = trace (world (dialled stuttering false)) ++ ws ++ cl
    /\ Forall (suffix_write 0%nat hello) ws
    /\ (cl = [] \/ cl = [EvClose 0%nat]).
Proof.
  refine (Write_only_writes_then_closes 5 hello (dialled stuttering false) 0%nat
            (2, None)
            {| recv := recv (dialled stuttering false);
               world := emit (EvClose 0%nat)
                          (set_conns [{| raddr := localhost; live := false |}]
                             (emit (EvWrite 0 (drop 2 hello))
                                (emit (EvWrite 0 hello)
                                   (world (dialled stuttering false))))) |} _ _);
    reflexivity.
Defined.

(** ** Logging *)

(** [Log] is [Write] of [log_payload]. *)
Lemma Log_is_Write fuel msg s :
  Log fuel msg s
  = Write fuel (log_payload (world s) msg)
      {| recv := recv s; world := emit EvNow (emit EvHostname (world s)) |}.
Proof.
  unfold log_payload.
  destruct (hostname (env (world s)) (now (world s))) as [e|name] eqn:Hh.
  - apply (Log_unfold fuel msg s EmptyString (Some e) (emit EvHostname (world s))).
    unfold os.Hostname. now rewrite Hh.
  - apply (Log_unfold fuel msg s name None (emit EvHostname (world s))).
    unfold os.Hostname. now rewrite Hh.
Qed.

Lemma log_payload_not_empty w msg : log_payload w msg <> [].
Proof. unfold log_payload, envelope. discriminate. Qed.

(** What [Close] and [Reopen] leave of the world. *)
Lemma Close_effects s r s' :
  Close s = Returns r s' ->
  exists c,
    socket (recv s) = Some c
    /\ recv s' = recv s
    /\ env (world s') = env (world s)
    /\ stdlog (world s') = stdlog (world s)
    /\ length (conns (world s')) = length (conns (world s))
    /\ ~ is_open (world s') c
    /\ forall c', c' <> c -> conns (world s') !! c' = conns (world s) !! c'.
Proof.
  rewrite Close_unfold. intros H. apply lift_inv in H as [Hu H].
  destruct (socket (recv s)) as [c|]; [|discriminate].
  exists c. apply Conn_Close_frame in H. tauto.
Qed.

Lemma open_effects s r s' :
  open s = Returns r s' ->
  stdlog (world s') = stdlog (world s)
  /\ forall c', (c' < length (conns (world s)))%nat ->
       conns (world s') !! c' = conns (world s) !! c'.
Proof.
  rewrite open_cases.
  destruct (resolver _ _ _) as [e|a]; cbn zeta;
    [|destruct (dialer _ _ _) as [e|]];
    intros H; injection H as _ <-; cbn [world stdlog conns emit set_conns];
    split; trivial.
  intros c' Hc'. now rewrite lookup_app_l.
Qed.

(** X12. [Close] and [Reopen] never write to the diagnostic log, and with
    [enableLogging] off neither do [Write] and [Log]: a writer built with
    logging disabled leaves the log exactly as it found it. *)
Theorem quiet_writer_never_logs fuel msg b s :
  (forall r s', Close s = Returns r s' -> stdlog (world s') = stdlog (world s))
  /\ (forall r s', Reopen s = Returns r s' -> stdlog (world s') = stdlog (world s))
  /\ (enableLogging (recv s) = false ->
      (forall r s', Write fuel b s = Returns r s' -> stdlog (world s') = stdlog (world s))
      /\ (forall r s', Log fuel msg s = Returns r s' ->
            stdlog (world s') = stdlog (world s))).
Proof.
  split; [|split].
  - intros r s' H. apply Close_effects in H as (c & H). tauto.
  - intros r s' H. unfold Reopen in H.
    apply bind_inv in H as (e & s1 & Hc & Hk).
    apply Close_effects in Hc as (c & _ & _ & _ & Hl & _).
    destruct e; cbn [is_nil] in Hk.
    + injection Hk as _ <-. assumption.
    + apply bind_inv in Hk as (e' & s2 & Ho & Hk).
      apply open_effects in Ho as [Hl' _].
      destruct e'; cbn [is_nil] in Hk; injection Hk as _ <-; congruence.
  - intros Hflag. split; intros r s' H.
    + apply Write_effects in H as (_ & _ & _ & Hl & _). auto.
    + rewrite Log_is_Write in H.
      apply Write_effects in H as (_ & _ & _ & Hl & _). apply (Hl Hflag).
Qed.

Lemma quiet_writer_never_logs_witness :
  stdlog (emit (EvClose 0%nat)
            (set_conns [{| raddr := localhost; live := false |}]
               (emit (EvWrite 0 hello) (world (dialled refusing false)))))
  = stdlog (world (dialled refusing false)).
Proof.
  refine (proj1 (proj2 (proj2
            (quiet_writer_never_logs 1 "test" hello (dialled refusing false)))
            eq_refl) (0, None)
            {| recv := recv (dialled refusing false);
               world := emit (EvClose 0%nat)
                          (set_conns [{| raddr := localhost; live := false |}]
                             (emit (EvWrite 0 hello)
                                (world (dialled refusing false)))) |} _).
  reflexivity.
Defined.

(** The error on which the loop stops is the error of a socket write,
    the last one, and the loop stops in the state that write left. *)
Lemma write_loop_error_origin fuel b n : forall total e s t cause s1,
  e = None ->
  write_loop fuel b n total e s = Returns (t, Some cause) s1 ->
  exists p w k,
    net.Conn_Write (socket (recv s)) p w = Returns (k, Some cause) (world s1).
Proof.
  induction fuel as [|fuel IH]; intros total e s t cause s1 He H; simpl in H;
    destruct ((total <? n) && is_nil e) eqn:Hc; try discriminate.
  1, 3: injection H as _ E _; congruence.
  unfold bind at 1, this in H. unfold bind at 1, slice_from in H.
  destruct ((0 <=? total) && (total <=? len b)); [|discriminate].
  unfold ret, bind, lift in H. cbn [recv world] in H.
  destruct (net.Conn_Write _ _ _) as [[k e1] w'| |] eqn:Hw; try discriminate.
  destruct e1 as [x|].
  - rewrite write_loop_done in H by (cbn [is_nil]; apply andb_false_r).
    injection H as _ <- <-. cbn [world]. eauto.
  - apply (IH _ None) in H; [exact H | reflexivity].
Qed.

(** X13. With [enableLogging] on, a [Write] that returns short of the
    payload has added to the diagnostic log the line that names the address,
    the length of the payload, the count written and the error of the write:
    the error on which the loop stopped, which is the error the last socket
    write returned.  After that line comes, exactly when [Write] returns an
    error, the line about the failed cleanup.  Nothing else is logged. *)
Theorem Write_short_count_diagnostics fuel b s n e s' :
  len b <= max_int ->
  enableLogging (recv s) = true ->
  Write fuel b s = Returns (n, e) s' ->
  n < len b ->
  exists cause s1 p w k,
    write_loop fuel b (len b) 0 None s = Returns (n, Some cause) s1
    /\ net.Conn_Write (socket (recv s)) p w = Returns (k, Some cause) (world s1)
    /\ stdlog (world s')
       = stdlog (world s)
         ++ write_failed_line (recv s) b n cause
            :: (if is_nil e then [] else [cleanup_failed_line (recv s)]).
Proof.
  intros Hmax Hflag H Hlt.
  destruct (Write_inv _ _ _ _ _ _ Hmax H) as [(_ & -> & _)|(cause & s1 & Hl)]; [lia|].
  destruct (write_loop_error_origin _ _ _ _ _ _ _ _ _ eq_refl Hl) as (p & w & k & Hw).
  exists cause, s1, p, w, k. split; [exact Hl|]. split; [exact Hw|].
  rewrite (Write_failed_log _ _ _ _ _ _ _ _ Hl H).
  rewrite Hflag. reflexivity.
Qed.

Lemma Write_short_count_diagnostics_witness :
  exists cause s1 p w k,
    write_loop 1 hello (len hello) 0 None (dialled hopeless true)
    = Returns (0, Some cause) s1
    /\ net.Conn_Write (socket (recv (dialled hopeless true))) p w
       = Returns (k, Some cause) (world s1)
    /\ stdlog (world (state_after (Write 1 hello (dialled hopeless true))))
       = stdlog (world (dialled hopeless true))
         ++ write_failed_line (recv (dialled hopeless true)) hello 0 cause
            :: (if is_nil (Some (mkError "close: input/output error")) then []
                else [cleanup_failed_line (recv (dialled hopeless true))]).
Proof.
  apply (Write_short_count_diagnostics 1 hello (dialled hopeless true) 0
           (Some (mkError "close: input/output error"))
           (state_after (Write 1 hello (dialled hopeless true)))).
  - vm_compute. discriminate.
  - reflexivity.
  - vm_compute. reflexivity.
  - reflexivity.
Defined.

(** X14. No operation on a writer touches a connection other than its own:
    after [Log], [Write], [Close] or [Reopen] every other connection object
    that existed is exactly as it was. *)
Theorem other_connections_untouched fuel msg b s c c' :
  socket (recv s) = Some c ->
  c' <> c ->
  (c' < length (conns (world s)))%nat ->
  (forall r s', Log fuel msg s = Returns r s' ->
     conns (world s') !! c' = conns (world s) !! c')
  /\ (forall r s', Write fuel b s = Returns r s' ->
        conns (world s') !! c' = conns (world s) !! c')
  /\ (forall r s', Close s = Returns r s' ->
        conns (world s') !! c' = conns (world s) !! c')
  /\ (forall r s', Reopen s = Returns r s' ->
        conns (world s') !! c' = conns (world s) !! c').
Proof.
  intros Hs Hne Hlt. split; [|split; [|split]]; intros r s' H.
  - rewrite Log_is_Write in H.
    apply Write_effects in H as (_ & _ & _ & _ & _ & H).
    destruct (H c Hs) as [Hc _]. apply (Hc c' Hne).
  - apply Write_effects in H as (_ & _ & _ & _ & _ & H).
    destruct (H c Hs) as [Hc _]. apply (Hc c' Hne).
  - apply Close_effects in H as (c0 & Hs0 & _ & _ & _ & _ & _ & Hc).
    apply Hc. congruence.
  - unfold Reopen in H. apply bind_inv in H as (e & s1 & Hc & Hk).
    apply Close_effects in Hc as (c0 & Hs0 & _ & _ & _ & Hlen & _ & Hc).
    assert (Hc1 : conns (world s1) !! c' = conns (world s) !! c')
      by (apply Hc; congruence).
    destruct e; cbn [is_nil] in Hk.
    + injection Hk as _ <-. assumption.
    + apply bind_inv in Hk as (e' & s2 & Ho & Hk).
      apply open_effects in Ho as [_ Ho].
      assert (conns (world s') = conns (world s2))
        by (destruct e'; cbn [is_nil] in Hk; now injection Hk as _ <-).
      rewrite H, Ho by lia. assumption.
Qed.

Lemma other_connections_untouched_witness :
  conns (set_conns
           ([{| raddr := localhost; live := true |};
             {| raddr := localhost; live := false |}]
            ++ [{| raddr := localhost; live := true |}])
           (emit (EvDial (Some localhost))
              (emit (EvResolve "127.0.0.1:9999")
                 (emit (EvClose 1%nat) (world (second_of_two healthy)))))) !! 0%nat
  = conns (world (second_of_two healthy)) !! 0%nat.
Proof.
  refine (proj2 (proj2 (proj2
            (other_connections_untouched 1 "test" hello (second_of_two healthy)
               1%nat 0%nat _ _ _))) None
            {| recv := {| socket := Some 2%nat; address := "127.0.0.1:9999";
                          enableLogging := false |};
               world := set_conns
                          ([{| raddr := localhost; live := true |};
                            {| raddr := localhost; live := false |}]
                           ++ [{| raddr := localhost; live := true |}])
                          (emit (EvDial (Some localhost))
                             (emit (EvResolve "127.0.0.1:9999")
                                (emit (EvClose 1%nat)
                                   (world (second_of_two healthy))))) |} _).
  - reflexivity.
  - discriminate.
  - simpl. lia.
  - reflexivity.
Defined.

(** X15. The first datagram [Log] hands to the socket is the whole
    envelope: after one hostname lookup and one reading of the clock, the
    first socket write carries the template filled with the stamp, the
    message as given and the host, newline included. *)
Theorem Log_sends_the_envelope_first fuel msg s c r s' :
  socket (recv s) = Some c ->
  Log (S fuel) msg s = Returns r s' ->
  exists rest,
    trace (world s')
    = trace (world s)
      ++ [EvHostname; EvNow; EvWrite c (log_payload (world s) msg)] ++ rest.
Proof.
  intros Hs H. rewrite Log_is_Write in H.
  apply (Write_first _ _ _ c) in H as [rest Hrest];
    [|apply log_payload_not_empty|assumption].
  exists rest. rewrite Hrest. cbn [world emit trace].
  now rewrite <- !app_assoc.
Qed.

Lemma Log_sends_the_envelope_first_witness :
  exists rest,
    trace (emit (EvClose 0%nat)
             (set_conns [{| raddr := localhost; live := false |}]
                (emit (EvWrite 0 (log_payload (world (dialled refusing false)) "test"))
                   (emit EvNow (emit EvHostname (world (dialled refusing false)))))))
    = trace (world (dialled refusing false))
      ++ [EvHostname; EvNow;
          EvWrite 0 (log_payload (world (dialled refusing false)) "test")] ++ rest.
Proof.
  refine (Log_sends_the_envelope_first 0 "test" (dialled refusing false) 0%nat
            (0, None)
            {| recv := recv (dialled refusing false);
               world := emit (EvClose 0%nat)
                          (set_conns [{| raddr := localhost; live := false |}]
                             (emit (EvWrite 0
                                      (log_payload (world (dialled refusing false))
                                         "test"))
                                (emit EvNow
                                   (emit EvHostname
                                      (world (dialled refusing false)))))) |} _ _).
  - reflexivity.
  - vm_compute. reflexivity.
Defined.

(** X16. With an open socket and a transport that makes progress, [Log]
    returns the length of the envelope and nil, and the socket stays open:
    the next [Log] finds the writer as usable as this one did. *)
Theorem Log_delivers c msg s :
  len (log_payload (world s) msg) <= max_int ->
  socket (recv s) = Some c ->
  is_open (world s) c ->
  makes_progress (env (world s)) c ->
  exists s',
    Log (length (log_payload (world s) msg)) msg s
    = Returns (len (log_payload (world s) msg), None) s'
    /\ recv s' = recv s
    /\ env (world s') = env (world s)
    /\ is_open (world s') c
    /\ stdlog (world s') = stdlog (world s).
Proof.
  intros Hmax Hs Ho Hp. rewrite Log_is_Write.
  set (s0 := {| recv := recv s; world := emit EvNow (emit EvHostname (world s)) |}).
  destruct (write_loop_terminates c (log_payload (world s) msg)
              (length (log_payload (world s) msg)) 0 s0) as [s1 H];
    try assumption; try (unfold len; lia).
  exists s1. split; [eapply Write_all_written; eassumption|].
  apply write_loop_spec in H
    as (_ & _ & _ & Hu & He & Hc & Hl & _); [|assumption|unfold len; lia].
  repeat split; try assumption.
  destruct Ho as [a Ha]. exists a. now rewrite Hc.
Qed.

Lemma Log_delivers_witness :
  exists s',
    Log (length (log_payload (world (dialled healthy true)) "test")) "test"
        (dialled healthy true)
    = Returns (len (log_payload (world (dialled healthy true)) "test"), None) s'
    /\ recv s' = recv (dialled healthy true)
    /\ env (world s') = env (world (dialled healthy true))
    /\ is_open (world s') 0%nat
    /\ stdlog (world s') = stdlog (world (dialled healthy true)).
Proof.
  apply (Log_delivers 0%nat "test" (dialled healthy true)).
  - vm_compute. discriminate.
  - reflexivity.
  - exists localhost. reflexivity.
  - intros t p Hp. exists (pred (length p)).
    destruct p; [congruence | reflexivity].
Defined.

(** ** The template *)

(** X17. The template does not escape its operands, so the datagram does
    not determine them: a message that ends in the text the template puts
    between message and host, followed by a host name of its choosing,
    yields the same bytes as the shorter message with that host name
    prepended to the real one. *)
Theorem envelope_is_ambiguous stamp m h h' :
  fmt.Sprintf basicMessageFormat
    [fmt.Str stamp; fmt.Str (m +:+ host_separator +:+ h); fmt.Str h']
  = fmt.Sprintf basicMessageFormat
      [fmt.Str stamp; fmt.Str m; fmt.Str (h +:+ host_separator +:+ h')].
Proof.
  rewrite !Sprintf_basicMessageFormat. unfold envelope, host_separator.
  now rewrite !string_append_assoc.
Qed.

Lemma string_length_append (a b : string) :
  String.length (a +:+ b) = (String.length a + String.length b)%nat.
Proof.
  induction a as [|x a IH]; [reflexivity|].
  change (S (String.length (a +:+ b)) = S (String.length a + String.length b)).
  now rewrite IH.
Qed.

Lemma length_list_byte_of_string (a : string) :
  length (list_byte_of_string a) = String.length a.
Proof.
  induction a as [|x a IH]; [reflexivity|].
  change (S (length (list_byte_of_string a)) = S (String.length a)).
  now rewrite IH.
Qed.

(** X18. The datagram of [Log] is 59 bytes longer than the stamp, the
    message and the host name together. *)
Theorem envelope_length stamp msg host :
  len (list_byte_of_string
         (fmt.Sprintf basicMessageFormat [fmt.Str stamp; fmt.Str msg; fmt.Str host]))
  = 59 + Z.of_nat (String.length stamp) + Z.of_nat (String.length msg)
    + Z.of_nat (String.length host).
Proof.
  rewrite Sprintf_basicMessageFormat. unfold len, envelope.
  rewrite length_list_byte_of_string, !string_length_append.
  change (String.length dquote) with 1%nat.
  change (String.length newline) with 1%nat.
  cbn [String.length]. lia.
Qed.

(** ** Panics, the receiver, and loops that do not end *)

Lemma Conn_Write_returns c b w :
  exists k e, net.Conn_Write (Some c) b w = Returns (k, e) (emit (EvWrite c b) w).
Proof.
  unfold net.Conn_Write.
  destruct (conns w !! c) as [conn|];
    [destruct (live conn); [destruct (transport _ _ _ _)|]|]; eauto.
Qed.

Lemma write_loop_no_panic c b reason : forall fuel total e s,
  len b <= max_int ->
  0 <= total <= len b ->
  socket (recv s) = Some c ->
  write_loop fuel b (len b) total e s <> Panics reason.
Proof.
  induction fuel as [|fuel IH]; intros total e s Hmax Ht Hs.
  - simpl. destruct (_ && _); discriminate.
  - destruct ((total <? len b) && is_nil e) eqn:Hc.
    + apply andb_true_iff in Hc as [Hlt He]. apply Z.ltb_lt in Hlt.
      destruct e; [discriminate|].
      rewrite write_loop_step by lia. rewrite Hs.
      destruct (Conn_Write_returns c (drop (Z.to_nat total) b) (world s))
        as (k & e1 & Hw).
      rewrite Hw. apply Conn_Write_inv in Hw as (h & _ & Hk & _).
      rewrite len_drop in Hk by lia.
      unfold int_add. rewrite wrap_int_id by (unfold max_int in *; lia).
      apply IH; [assumption | lia | assumption].
    + now rewrite write_loop_done.
Qed.

Lemma Write_no_panic c b reason fuel s :
  len b <= max_int ->
  socket (recv s) = Some c ->
  Write fuel b s <> Panics reason.
Proof.
  intros Hmax Hs HW.
  destruct (write_loop fuel b (len b) 0 None s) as [[t [cause|]] s1| |] eqn:Hl.
  - pose proof (write_loop_frame _ _ _ _ _ _ _ _ Hl) as (Hu & _).
    rewrite <- Hu in Hs. rewrite (Write_failed_exact _ _ _ _ _ _ _ Hl Hs) in HW.
    destruct (Conn_Close_returns c
                (if enableLogging (recv s1)
                 then append_log (write_failed_line (recv s1) b t cause) (world s1)
                 else world s1)) as (x & w2 & Hclose & _).
    rewrite Hclose in HW. discriminate.
  - unfold Write in HW. rewrite (bind_returns _ _ _ _ _ Hl) in HW. discriminate.
  - eapply write_loop_no_panic; [exact Hmax | | exact Hs | exact Hl].
    unfold len; lia.
  - unfold Write, bind in HW. rewrite Hl in HW. discriminate.
Qed.

(** X19. A writer that holds a socket, open or closed, never panics:
    [Log], [Write], [Close] and [Reopen] dereference no nil pointer, and the
    loop of [Write] never slices the payload out of range, whatever counts
    and errors the transport reports. *)
Theorem operations_never_panic fuel msg b s c reason :
  socket (recv s) = Some c ->
  len b <= max_int ->
  len (log_payload (world s) msg) <= max_int ->
  Log fuel msg s <> Panics reason
  /\ Write fuel b s <> Panics reason
  /\ Close s <> Panics reason
  /\ Reopen s <> Panics reason.
Proof.
  intros Hs Hb Hp.
  assert (HC : exists r s1, Close s = Returns r s1).
  { rewrite Close_unfold. unfold lift. rewrite Hs.
    destruct (Conn_Close_returns c (world s)) as (r & w' & -> & _). eauto. }
  split; [|split; [|split]].
  - rewrite Log_is_Write. now apply (Write_no_panic c).
  - now apply (Write_no_panic c).
  - destruct HC as (r & s1 & ->). discriminate.
  - destruct HC as (r & s1 & HC). unfold Reopen.
    rewrite (bind_returns _ _ _ _ _ HC).
    destruct r; cbn [is_nil]; [discriminate|].
    unfold bind. rewrite open_cases.
    destruct (resolver _ _ _); cbn zeta; [discriminate|].
    destruct (dialer _ _ _); discriminate.
Qed.

Lemma operations_never_panic_witness :
  Log 1 "test" (dialled hopeless true) <> Panics nil_dereference
  /\ Write 1 hello (dialled hopeless true) <> Panics nil_dereference
  /\ Close (dialled hopeless true) <> Panics nil_dereference
  /\ Reopen (dialled hopeless true) <> Panics nil_dereference.
Proof.
  apply (operations_never_panic 1 "test" hello (dialled hopeless true) 0%nat).
  - reflexivity.
  - vm_compute. discriminate.
  - vm_compute. discriminate.
Defined.

(** X20. [Log], [Write] and [Close] leave their receiver exactly as it
    was, socket included, even when [Write] has closed that socket.  Only
    [Reopen] can change the receiver, only when it returns nil, and then
    only the socket, to the connection object just created; a [Reopen] that
    returns an error leaves the writer holding its old socket. *)
Theorem only_Reopen_replaces_the_socket fuel msg b s :
  (forall r s', Log fuel msg s = Returns r s' -> recv s' = recv s)
  /\ (forall r s', Write fuel b s = Returns r s' -> recv s' = recv s)
  /\ (forall r s', Close s = Returns r s' -> recv s' = recv s)
  /\ (forall r s', Reopen s = Returns r s' ->
        match r with
        | Some _ => recv s' = recv s
        | None =>
            recv s' = {| socket := Some (length (conns (world s)));
                         address := address (recv s);
                         enableLogging := enableLogging (recv s) |}
        end).
Proof.
  split; [|split; [|split]]; intros r s' H.
  - rewrite Log_is_Write in H. apply Write_effects in H as (H & _). exact H.
  - apply Write_effects in H as (H & _). exact H.
  - apply Close_effects in H as (c & _ & H & _). exact H.
  - unfold Reopen in H. apply bind_inv in H as (e & s1 & Hc & Hk).
    apply Close_effects in Hc as (c & _ & Hu & _ & _ & Hlen & _).
    destruct e; cbn [is_nil] in Hk.
    + injection Hk as <- <-. assumption.
    + apply bind_inv in Hk as (e' & s2 & Ho & Hk).
      rewrite open_cases in Ho.
      destruct (resolver _ _ _); cbn zeta in Ho;
        [|destruct (dialer _ _ _)];
        injection Ho as <- <-; cbn [is_nil] in Hk; injection Hk as <- <-;
        cbn [recv]; rewrite ?Hu, ?Hlen; trivial.
Qed.

Lemma only_Reopen_replaces_the_socket_witness :
  recv (hung_up refusing false) = recv (dialled refusing false).
Proof.
  refine (proj1 (proj2 (only_Reopen_replaces_the_socket 1 "" hello
                          (dialled refusing false))) (0, None)
            {| recv := recv (hung_up refusing false);
               world := emit (EvClose 0%nat)
                          (set_conns [{| raddr := localhost; live := false |}]
                             (emit (EvWrite 0 hello)
                                (world (dialled refusing false)))) |} _).
  reflexivity.
Defined.

(** X21. A writer whose socket is nil, as a struct literal that was never
    opened has it, panics with a nil dereference on [Close], on [Reopen], on
    every [Write] of a non-empty payload and on every [Log]. *)
Theorem nil_socket_panics fuel msg b s :
  socket (recv s) = None ->
  b <> [] ->
  Close s = Panics nil_dereference
  /\ Reopen s = Panics nil_dereference
  /\ Write (S fuel) b s = Panics nil_dereference
  /\ Log (S fuel) msg s = Panics nil_dereference.
Proof.
  intros Hs Hb.
  assert (HC : Close s = Panics nil_dereference)
    by (rewrite Close_unfold; unfold lift, net.Conn_Close; now rewrite Hs).
  assert (HW : forall p s0, p <> [] -> socket (recv s0) = None ->
                 Write (S fuel) p s0 = Panics nil_dereference).
  { intros p s0 Hp Hs0. unfold Write, bind.
    assert (Hpos : 0 < len p) by (destruct p; [congruence | unfold len; simpl; lia]).
    rewrite write_loop_step by lia. now rewrite Hs0. }
  split; [exact HC|]. split; [unfold Reopen, bind; now rewrite HC|].
  split; [now apply HW|].
  rewrite Log_is_Write. apply HW; [apply log_payload_not_empty | exact Hs].
Qed.

Lemma nil_socket_panics_witness :
  Close (unopened healthy) = Panics nil_dereference
  /\ Reopen (unopened healthy) = Panics nil_dereference
  /\ Write 1 hello (unopened healthy) = Panics nil_dereference
  /\ Log 1 "test" (unopened healthy) = Panics nil_dereference.
Proof.
  apply (nil_socket_panics 0 "test" hello (unopened healthy)).
  - reflexivity.
  - discriminate.
Defined.

Lemma write_loop_stalls c b : forall fuel s,
  b <> [] ->
  socket (recv s) = Some c ->
  is_open (world s) c ->
  stalls (env (world s)) c ->
  write_loop fuel b (len b) 0 None s = OutOfFuel.
Proof.
  intros fuel s Hb. 
  assert (Hpos : 0 < len b) by (destruct b; [congruence | unfold len; simpl; lia]).
  revert s. induction fuel as [|fuel IH]; intros s Hs Ho Hst.
  - simpl. replace (0 <? len b) with true by (symmetry; apply Z.ltb_lt; lia).
    reflexivity.
  - rewrite write_loop_step by lia. destruct Ho as [a Ha].
    unfold net.Conn_Write. rewrite Hs, Ha. cbn [live]. rewrite Hst.
    cbn [Nat.min Z.of_nat]. change (int_add 0 0) with 0.
    apply IH; cbn [recv world]; try assumption. now exists a.
Qed.

(** X22. Against a transport that accepts no byte and reports no error,
    [Write] of a non-empty payload on an open writer never returns: however
    many iterations it is given, the loop is still running.  There is no
    retry limit. *)
Theorem Write_spins_on_a_stalled_transport fuel b s c :
  b <> [] ->
  socket (recv s) = Some c ->
  is_open (world s) c ->
  stalls (env (world s)) c ->
  Write fuel b s = OutOfFuel.
Proof.
  intros Hb Hs Ho Hst. unfold Write, bind.
  now rewrite (write_loop_stalls c b fuel s Hb Hs Ho Hst).
Qed.

Lemma Write_spins_on_a_stalled_transport_witness :
  Write 1000 hello (dialled stalled false) = OutOfFuel.
Proof.
  apply (Write_spins_on_a_stalled_transport 1000 hello (dialled stalled false) 0%nat).
  - discriminate.
  - reflexivity.
  - exists localhost. reflexivity.
  - intros t p. reflexivity.
Defined.

(** ** Reopening and logging again *)

(** A successful [Reopen] of an open writer, spelled out. *)
Lemma Reopen_exact s c a a' :
  socket (recv s) = Some c ->
  conns (world s) !! c = Some {| raddr := a; live := true |} ->
  closer (env (world s)) (now (world s)) c = None ->
  resolver (env (world s)) (now (emit (EvClose c) (world s))) (address (recv s)) = inr a' ->
  dialer (env (world s))
    (now (emit (EvResolve (address (recv s))) (emit (EvClose c) (world s)))) a' = None ->
  Reopen s
  = Returns None
      {| recv := {| socket := Some (length (conns (world s)));
                    address := address (recv s);
                    enableLogging := enableLogging (recv s) |};
         world := set_conns
                    (<[c := {| raddr := a; live := false |}]> (conns (world s))
                     ++ [{| raddr := a'; live := true |}])
                    (emit (EvDial (Some a'))
                       (emit (EvResolve (address (recv s)))
                          (emit (EvClose c) (world s)))) |}.
Proof.
  intros Hs Hc Hcl Hr Hd. unfold Reopen.
  rewrite (bind_returns _ _ _ _ _ (Close_open_connection s c a Hs Hc)).
  rewrite Hcl. cbn [is_nil]. unfold bind. rewrite open_cases.
  cbn [recv world]. unfold now, emit, set_conns in Hr, Hd |- *.
  cbn [trace env conns stdlog] in Hr, Hd |- *.
  rewrite Hr. cbn zeta. rewrite Hd. cbn [is_nil]. unfold ret.
  now rewrite length_insert.
Qed.

(** X23. [Reopen] on a healthy writer succeeds and the writer can log
    again: when the close succeeds, the address resolves, the endpoint can
    be created and the transport makes progress on the new connection, the
    [Log] that follows returns the length of its envelope and nil. *)
Theorem Reopen_then_Log_delivers msg s c a a' :
  socket (recv s) = Some c ->
  conns (world s) !! c = Some {| raddr := a; live := true |} ->
  closer (env (world s)) (now (world s)) c = None ->
  resolver (env (world s)) (now (emit (EvClose c) (world s))) (address (recv s)) = inr a' ->
  dialer (env (world s))
    (now (emit (EvResolve (address (recv s))) (emit (EvClose c) (world s)))) a' = None ->
  makes_progress (env (world s)) (length (conns (world s))) ->
  exists s1,
    Reopen s = Returns None s1
    /\ (len (log_payload (world s1) msg) <= max_int ->
        exists s2,
          Log (length (log_payload (world s1) msg)) msg s1
          = Returns (len (log_payload (world s1) msg), None) s2).
Proof.
  intros Hs Hc Hcl Hr Hd Hp.
  assert (Hlt : (c < length (conns (world s)))%nat)
    by (eapply lookup_lt_Some; eassumption).
  eexists. split; [apply (Reopen_exact s c a a'); assumption|].
  intros Hmax. rewrite Log_is_Write.
  match goal with
  | |- exists s2, Write _ ?p ?s0 = _ =>
      destruct (write_loop_terminates (length (conns (world s))) p (length p) 0 s0)
        as [s2 H]
  end; try assumption; try (unfold len; lia); try reflexivity.
  - exists a'. cbn [world conns emit set_conns].
    rewrite lookup_app_r by (rewrite length_insert; lia).
    now rewrite length_insert, Nat.sub_diag.
  - exists s2. eapply Write_all_written; eassumption.
Qed.

Lemma Reopen_then_Log_delivers_witness :
  exists s1,
    Reopen (dialled healthy false) = Returns None s1
    /\ (len (log_payload (world s1) "test") <= max_int ->
        exists s2,
          Log (length (log_payload (world s1) "test")) "test" s1
          = Returns (len (log_payload (world s1) "test"), None) s2).
Proof.
  apply (Reopen_then_Log_delivers "test" (dialled healthy false) 0%nat
           localhost localhost); try reflexivity.
  intros t p Hp. exists (pred (length p)).
  destruct p; [congruence | reflexivity].
Defined.
